(** * Ben-Or style binary consensus node (src/nodes/node.ts)

    A shallow embedding of the express handlers of one node and of the
    network of N such nodes, with the properties of the specification
    stated and proved over it.

    The [/start] handler is an [async] function: it runs synchronously
    up to each [await], and other handlers of the same node may run
    while it is suspended.  It is embedded as a resumable computation:
    one function per synchronous segment, and a program point [Pc]
    telling where a suspended invocation will continue. *)

From Stdlib Require Import ZArith QArith.
From stdpp Require Import base decidable option list gmap strings.

Close Scope Q_scope.
Open Scope Z_scope.

(** ** Data model *)

(** Modelled from the spec: the type [Value] of [src/types.ts] is not
    part of the sources at hand.  A vote value is 0, 1 or the abstain
    marker, which [node.ts] writes ["?"]. *)
Inductive Value := V0 | V1 | VQ.

#[global] Instance Value_eq_dec : EqDecision Value.
Proof. solve_decision. Defined.

(** Modelled from the spec: the type [NodeState] of [src/types.ts];
    the four fields are the ones [node.ts] reads and writes, [None]
    standing for [null]. *)
Record NodeState := mkNodeState {
  killed : bool;
  x : option Value;
  decided : option bool;
  k : option Z
}.

#[global] Instance NodeState_eq_dec : EqDecision NodeState.
Proof. solve_decision. Defined.

(** The arguments of [node(...)] that the handlers close over. *)
Record NodeArgs := mkNodeArgs {
  nodeId : Z;
  N : Z;
  F : Z;
  initialValue : Value;
  isFaulty : bool
}.

(** The two pieces of mutable state of a node: [nodeState] and the
    per-round inbox [receivedMessages : Record<number, Value[]>]. *)
Record World := mkWorld {
  nodeState : NodeState;
  receivedMessages : gmap Z (list Value)
}.

(** JSON bodies of the replies. *)
Inductive Body :=
| BText (s : string)
| BState (st : NodeState)
| BError (error : string)
| BReceived (received : bool)
| BStatus (status : string)
| BResult (status : string) (rx : option Value) (rdecided : option bool)
          (rk : option Z).

Record Response := mkResponse { code : Z; body : Body }.

(** What a handler does to the outside: a [fetch] POST of a vote to the
    [/message] route of node [dest], or the reply to its own caller. *)
Inductive Output :=
| Sent (dest : Z) (step : Z) (value : option Value)
| Reply (r : Response).

(** Where a suspended [/start] invocation continues. *)
Inductive Pc :=
| AwaitSend (round : Z)    (* at [await Promise.all(...)] *)
| AwaitDelay (round : Z)   (* at [await delay(100)] *)
| Returned.

#[global] Instance Pc_eq_dec : EqDecision Pc.
Proof. solve_decision. Defined.

(** ** Field updates *)

Definition set_killed (b : bool) (w : World) : World :=
  let s := nodeState w in
  mkWorld (mkNodeState b (x s) (decided s) (k s)) (receivedMessages w).

Definition set_x (v : option Value) (w : World) : World :=
  let s := nodeState w in
  mkWorld (mkNodeState (killed s) v (decided s) (k s)) (receivedMessages w).

Definition set_decided (d : option bool) (w : World) : World :=
  let s := nodeState w in
  mkWorld (mkNodeState (killed s) (x s) d (k s)) (receivedMessages w).

Definition set_k (r : option Z) (w : World) : World :=
  let s := nodeState w in
  mkWorld (mkNodeState (killed s) (x s) (decided s) r) (receivedMessages w).

(** ** The handlers *)

(** [randomBit]: [Math.random() < 0.5 ? 0 : 1], the draw [u] of
    [Math.random()] being an input. *)
Definition randomBit (u : Q) : Value :=
  match Qcompare u (1 # 2) with
  | Lt => V0
  | _ => V1
  end.

(** Initial [nodeState] and empty inbox. *)
Definition init_world (a : NodeArgs) : World :=
  mkWorld
    (mkNodeState false
       (if isFaulty a then None else Some (initialValue a))
       (if isFaulty a then None else Some false)
       (if isFaulty a then None else Some 0))
    ∅.

(** GET /status *)
Definition status (a : NodeArgs) : Response :=
  if isFaulty a then mkResponse 500 (BText "faulty")
  else mkResponse 200 (BText "live").

(** GET /getState *)
Definition getState (w : World) : Response :=
  mkResponse 200 (BState (nodeState w)).

(** POST /message *)
Definition message (step : Z) (value : Value) (w : World) : World * Response :=
  if killed (nodeState w) then (w, mkResponse 400 (BError "Node is stopped"))
  else
    let received :=
      match receivedMessages w !! step with
      | Some l => l
      | None => []
      end in
    (mkWorld (nodeState w) (<[step := received ++ [value]]> (receivedMessages w)),
     mkResponse 200 (BReceived true)).

(** GET /stop *)
Definition stop (w : World) : World * Response :=
  (set_k None (set_decided None (set_x None (set_killed true w))),
   mkResponse 200 (BStatus "stopped")).

Definition MAX_STEPS : Z := 2.

(** Truthiness of [!nodeState.decided]: [null] and [false] are falsy. *)
Definition not_decided (d : option bool) : bool :=
  match d with
  | Some true => false
  | _ => true
  end.

(** The test [F > N / 2].  The division of JavaScript is not the
    integer one, so the test is made on rationals; [N] and [F] are taken
    to be integers. *)
Definition half_lt (n f : Z) : bool :=
  match Qcompare (inject_Z n / 2)%Q (inject_Z f) with
  | Lt => true
  | _ => false
  end.

(** Step 1 of a round: one POST to every index [i] of
    [Array.from({ length: N })] other than [nodeId], carrying the
    current [x]. *)
Definition broadcast (a : NodeArgs) (round : Z) (xv : option Value) : list Output :=
  omap (λ i, if decide (i ≠ nodeId a) then Some (Sent i round xv) else None)
       (Z.of_nat <$> seq 0 (Z.to_nat (N a))).

(** Step 3 of a round: the new [x] from the votes of the round. *)
Definition tally (messages : list Value) (u : Q) : Value :=
  let numericVotes := filter (λ v, v ≠ VQ) messages in
  let countOnes := Z.of_nat (length (filter (λ v, v = V1) numericVotes)) in
  let countZeros := Z.of_nat (length (filter (λ v, v = V0) numericVotes)) in
  if decide (countOnes > countZeros) then V1
  else if decide (countZeros > countOnes) then V0
  else randomBit u.

(** Steps 3 and 4 of a round, resumed after the delay; the boolean
    tells whether the loop is left by the [break] of step 4. *)
Definition process_round (a : NodeArgs) (round : Z) (u : Q) (w : World) : World * bool :=
  let messages := default [] (receivedMessages w !! round) in
  let numericVotes := filter (λ v, v ≠ VQ) messages in
  let w1 := set_x (Some (tally messages u)) w in
  let countX :=
    Z.of_nat (length (filter (λ v, Some v = x (nodeState w1)) numericVotes)) in
  if decide (countX >= N a - F a)
  then (set_decided (Some true) w1, true)
  else (w1, false).

(** After the loop: the forced decision and the reply. *)
Definition finish (w : World) : World * list Output * Pc :=
  let w1 :=
    if not_decided (decided (nodeState w))
    then set_k (Some 2) (set_decided (Some true) (set_x (Some V1) w))
    else w in
  let s := nodeState w1 in
  (w1,
   [Reply (mkResponse 200
      (BResult "Consensus process finished" (x s) (decided s) (k s)))],
   Returned).

(** Head of the [for] loop at [round], up to the first [await] of the
    round: either the invocation is suspended at the broadcast, or the
    loop is left (by [break], or because [round < MAX_STEPS] fails). *)
Inductive LoopHead :=
| Suspended (w : World) (out : list Output) (pc : Pc)
| Exited (w : World).

Definition loop_head (a : NodeArgs) (round : Z) (w : World) : LoopHead :=
  if decide (round < MAX_STEPS) then
    if killed (nodeState w) then Exited w
    else
      let w1 := set_k (Some round) w in
      Suspended w1 (broadcast a round (x (nodeState w1))) (AwaitSend round)
  else Exited w.

Definition loop (a : NodeArgs) (round : Z) (w : World) : World * list Output * Pc :=
  match loop_head a round w with
  | Suspended w1 out pc => (w1, out, pc)
  | Exited w1 => finish w1
  end.

(** GET /start, from its entry to its first [await] or [return]. *)
Definition start (a : NodeArgs) (w : World) : World * list Output * Pc :=
  if killed (nodeState w) then
    (w, [Reply (mkResponse 400 (BError "Node is stopped"))], Returned)
  else if isFaulty a then
    (set_k None (set_decided None (set_x None w)),
     [Reply (mkResponse 200 (BStatus "Faulty node, not participating"))],
     Returned)
  else if half_lt (N a) (F a) then
    let w1 := set_k (Some 11) (set_decided (Some false) w) in
    let w2 := if x (nodeState w1) is None then set_x (Some V1) w1 else w1 in
    let w3 := set_killed true w2 in
    (w3,
     [Reply (mkResponse 200
        (BResult "Exceeding fault tolerance => no finality"
           (x (nodeState w3)) (Some false) (k (nodeState w3))))],
     Returned)
  else loop a 0 w.

(** A suspended [/start] invocation continues from [pc]; [u] is the
    draw used if the tally of the round is a tie. *)
Definition resume (a : NodeArgs) (pc : Pc) (u : Q) (w : World) : World * list Output * Pc :=
  match pc with
  | AwaitSend round => (w, [], AwaitDelay round)
  | AwaitDelay round =>
      let '(w1, brk) := process_round a round u w in
      if brk then finish w1 else loop a (round + 1) w1
  | Returned => (w, [], Returned)
  end.

(** ** One node as a transition system *)

(** The state of a node between two handler segments: its variables and
    the [/start] invocations made so far, each with its program point. *)
Record Sys := mkSys {
  world : World;
  handlers : list Pc
}.

(** What can happen at a node: a request on one of its routes, or the
    continuation of the [h]-th [/start] invocation at its [await]. *)
Inductive Event :=
| GetStatus
| GetState
| PostMessage (step : Z) (value : Value)
| GetStop
| GetStart
| Resume (h : nat) (u : Q).

#[global] Instance Q_eq_dec : EqDecision Q.
Proof. solve_decision. Defined.

#[global] Instance Event_eq_dec : EqDecision Event.
Proof. solve_decision. Defined.

Definition step (a : NodeArgs) (e : Event) (s : Sys) : Sys * list Output :=
  match e with
  | GetStatus => (s, [Reply (status a)])
  | GetState => (s, [Reply (getState (world s))])
  | PostMessage st v =>
      let '(w, r) := message st v (world s) in
      (mkSys w (handlers s), [Reply r])
  | GetStop =>
      let '(w, r) := stop (world s) in
      (mkSys w (handlers s), [Reply r])
  | GetStart =>
      let '(w, out, pc) := start a (world s) in
      (mkSys w (handlers s ++ [pc]), out)
  | Resume h u =>
      match handlers s !! h with
      | Some pc =>
          let '(w, out, pc') := resume a pc u (world s) in
          (mkSys w (<[h := pc']> (handlers s)), out)
      | None => (s, [])
      end
  end.

Fixpoint exec (a : NodeArgs) (t : list Event) (s : Sys) : Sys * list Output :=
  match t with
  | [] => (s, [])
  | e :: t' =>
      let '(s1, o1) := step a e s in
      let '(s2, o2) := exec a t' s1 in
      (s2, o1 ++ o2)
  end.

Definition init (a : NodeArgs) : Sys := mkSys (init_world a) [].

Definition run (a : NodeArgs) (t : list Event) : Sys := (exec a t (init a)).1.

Definition outputs (a : NodeArgs) (t : list Event) : list Output :=
  (exec a t (init a)).2.

(** ** Counting votes *)

(** The number of votes equal to [v] in a list of received votes,
    counted directly, without going through [filter]. *)
Fixpoint votes_for (v : Value) (votes : list Value) : Z :=
  match votes with
  | [] => 0
  | v' :: rest => (if decide (v' = v) then 1 else 0) + votes_for v rest
  end.

(** The votes of the inbox of [w] for [round]: [receivedMessages[round] || []]. *)
Definition inbox (w : World) (round : Z) : list Value :=
  default [] (receivedMessages w !! round).


(** ** Vocabulary for traces *)

(** No vote is posted by a list of outputs. *)
Definition silent (out : list Output) : Prop :=
  ∀ dest st v, Sent dest st v ∉ out.

(** Every [/start] invocation made so far has returned. *)
Definition all_returned (s : Sys) : Prop :=
  Forall (λ pc, pc = Returned) (handlers s).

(** Requests that only deliver a vote or read: the events by which the
    rest of the system acts on a node that nobody stops or restarts. *)
Definition passive (e : Event) : Prop :=
  match e with
  | PostMessage _ _ | GetState | GetStatus => True
  | _ => False
  end.

(** The state [stop] leaves. *)
Definition stopped : NodeState := mkNodeState true None None None.

(** A program point inside the loop is at a round below the cap. *)
Definition pc_in_loop (pc : Pc) : Prop :=
  match pc with
  | AwaitSend round | AwaitDelay round => 0 ≤ round < MAX_STEPS
  | Returned => True
  end.

(** The round counter is null or between 0 and the cap. *)
Definition round_in_range (s : Sys) : Prop :=
  Forall pc_in_loop (handlers s)
  ∧ match k (nodeState (world s)) with
    | Some r => 0 ≤ r ≤ MAX_STEPS
    | None => True
    end.

(** [decided] is not [true]: it is [false] or [null]. *)
Definition undecided (w : World) : Prop :=
  decided (nodeState w) ≠ Some true.

(** At least N − F of the votes buffered for [round] are the numeric
    value [v]. *)
Definition supermajority (a : NodeArgs) (w : World) (round : Z) (v : Value) : Prop :=
  v ≠ VQ ∧ N a - F a ≤ votes_for v (inbox w round).

(** What holds of a node on which [/start] was called once, in terms of
    the program point of that invocation: while it is in the loop the
    node is undecided and the round counter is the round of the loop
    (or null, after a [stop]); once it has returned, a decision at a
    round below the cap was licensed by a supermajority. *)
Definition started_once (a : NodeArgs) (s : Sys) : Prop :=
  ∃ pc, handlers s = [pc] ∧
    match pc with
    | AwaitSend round | AwaitDelay round =>
        undecided (world s)
        ∧ (k (nodeState (world s)) = Some round ∨ k (nodeState (world s)) = None)
    | Returned =>
        ∀ v r,
          decided (nodeState (world s)) = Some true →
          x (nodeState (world s)) = Some v →
          k (nodeState (world s)) = Some r →
          r ≠ MAX_STEPS →
          supermajority a (world s) r v
    end.

(** Before [/start] is called: no invocation, no decision. *)
Definition not_started (s : Sys) : Prop :=
  handlers s = [] ∧ undecided (world s).

(** Events that leave a node alone once its [/start] invocations have
    all returned: votes, reads, and continuations (which find nothing
    to continue). *)
Definition idle (e : Event) : Prop :=
  match e with
  | GetStop | GetStart => False
  | _ => True
  end.

(** The consensus fields of a faulty participant: all null, and no
    [/start] invocation inside the loop. *)
Definition sidelined (s : Sys) : Prop :=
  x (nodeState (world s)) = None
  ∧ decided (nodeState (world s)) = None
  ∧ k (nodeState (world s)) = None
  ∧ all_returned s.

(** ** The network of nodes *)

(** A vote on its way: the output [Sent dst p_step p_value] of node
    [src]. *)
Record Packet := mkPacket {
  src : Z;
  dst : Z;
  p_step : Z;
  p_value : option Value
}.

#[global] Instance Packet_eq_dec : EqDecision Packet.
Proof. solve_decision. Defined.

(** The nodes, addressed by position ([BASE_NODE_PORT + i] is node
    [i]), the votes posted and not yet handled, and the log of the votes
    that were appended to an inbox. *)
Record Net := mkNet {
  nodes : list Sys;
  inflight : list Packet;
  delivered : list Packet
}.

(** Modelled from the spec: the launcher that calls [node(...)] is not
    part of the sources at hand; an external driver creates the N
    participants, with ids 0 to N − 1, the common N and F, and for each
    its initial value and faulty flag. *)
Definition launch (n f : Z) (initialValues : list Value) (faultyList : list bool) : list NodeArgs :=
  imap (λ i p, mkNodeArgs (Z.of_nat i) n f p.1 p.2) (zip initialValues faultyList).

(** What happens in the network: something happens at node [i] (a
    request of the driver, or a continuation of [/start]), or the
    [j]-th vote in flight reaches the [/message] route of its
    destination. *)
Inductive NetEvent :=
| At (i : nat) (e : Event)
| Deliver (j : nat).

(** The votes among the outputs of node [i]. *)
Definition packets (i : Z) (out : list Output) : list Packet :=
  omap (λ o, match o with
             | Sent dest st v => Some (mkPacket i dest st v)
             | Reply _ => None
             end) out.

(** The node listening at address [d], if any. *)
Definition node_at (d : Z) : option nat :=
  if decide (0 ≤ d) then Some (Z.to_nat d) else None.

(** One network event.  A vote whose destination does not exist is
    lost ([fetch] fails and the failure is caught and logged); so is, in
    this model, a vote whose value is [null], which is not a [Value]:
    no node ever posts one (see [votes_carry_a_value]). *)
Definition net_step (cfg : list NodeArgs) (e : NetEvent) (n : Net) : Net :=
  match e with
  | At i ev =>
      match cfg !! i, nodes n !! i with
      | Some a, Some s =>
          let r := step a ev s in
          mkNet (<[i := r.1]> (nodes n))
                (inflight n ++ packets (Z.of_nat i) r.2)
                (delivered n)
      | _, _ => n
      end
  | Deliver j =>
      match inflight n !! j with
      | None => n
      | Some p =>
          let rest := delete j (inflight n) in
          match p_value p, node_at (dst p) with
          | Some v, Some i =>
              match cfg !! i, nodes n !! i with
              | Some a, Some s =>
                  let r := step a (PostMessage (p_step p) v) s in
                  mkNet (<[i := r.1]> (nodes n)) rest
                        (if killed (nodeState (world s)) then delivered n
                         else delivered n ++ [p])
              | _, _ => mkNet (nodes n) rest (delivered n)
              end
          | _, _ => mkNet (nodes n) rest (delivered n)
          end
      end
  end.

Fixpoint net_exec (cfg : list NodeArgs) (sched : list NetEvent) (n : Net) : Net :=
  match sched with
  | [] => n
  | e :: sched' => net_exec cfg sched' (net_step cfg e n)
  end.

Definition net_init (cfg : list NodeArgs) : Net :=
  mkNet (init <$> cfg) [] [].

Definition net_run (cfg : list NodeArgs) (sched : list NetEvent) : Net :=
  net_exec cfg sched (net_init cfg).

(** Every node has the id of its address. *)
Definition well_addressed (cfg : list NodeArgs) : Prop :=
  ∀ i a, cfg !! i = Some a → nodeId a = Z.of_nat i.

(** In a closed network votes reach a node through [Deliver] only: the
    driver posts none. *)
Definition driver_event (e : NetEvent) : Prop :=
  match e with
  | At _ (PostMessage _ _) => False
  | _ => True
  end.

(** The votes logged as appended to the inbox of node [i] for [round]. *)
Definition received_by (i : nat) (round : Z) (log : list Packet) : list Value :=
  omap p_value (filter (λ p, dst p = Z.of_nat i ∧ p_step p = round) log).

(** ** The lockstep schedule *)

(** The same event at each of the [n] nodes, in the order of their ids. *)
Definition everyone (n : nat) (e : Event) : list NetEvent :=
  (λ i, At i e) <$> seq 0 n.

(** Every vote in flight is delivered, oldest first (at most [n * n]
    are in flight at a time). *)
Definition flush (n : nat) : list NetEvent :=
  replicate (n * n) (Deliver 0).

(** One round in which every vote posted arrives within the collection
    window: the broadcasts complete, the votes are handled, and then
    each node tallies. *)
Definition lockstep_round (n : nat) (u : Q) : list NetEvent :=
  flush n ++ everyone n (Resume 0 u) ++ everyone n (Resume 0 u).

(** All nodes are started, then the two rounds run in lockstep. *)
Definition lockstep (n : nat) (u : Q) : list NetEvent :=
  everyone n GetStart ++ lockstep_round n u ++ lockstep_round n u ++ flush n.

(** Scenario A: N = 4, F = 1, beliefs 0, 0, 0 and 1; the fourth
    participant is either a correct one or the faulty one. *)
Definition scenario_A (fourth_faulty : bool) : list NodeArgs :=
  launch 4 1 [V0; V0; V0; V1] [false; false; false; fourth_faulty].

(** The state of node [i] of a network, if there is one. *)
Definition state_of (n : Net) (i : nat) : option NodeState :=
  (λ s, nodeState (world s)) <$> nodes n !! i.

(** A non-faulty participant that is not killed has a belief. *)
Definition has_belief (a : NodeArgs) (s : Sys) : Prop :=
  isFaulty a = false →
  killed (nodeState (world s)) = false →
  x (nodeState (world s)) ≠ None.

(** Every vote of the network, in flight or logged, was posted by a
    node to another node, and the inbox of each node holds, round by
    round, the votes logged for it, in the order of their arrival. *)
Definition peer_votes_only (cfg : list NodeArgs) (n : Net) : Prop :=
  (∀ p, p ∈ inflight n ++ delivered n →
        src p ≠ dst p ∧ ∃ i, src p = Z.of_nat i ∧ (i < length cfg)%nat)
  ∧ ∀ i s round,
      nodes n !! i = Some s →
      inbox (world s) round = received_by i round (delivered n).

(** No vote in flight has the value [null], and every node has a
    belief to post. *)
Definition votes_have_value (cfg : list NodeArgs) (n : Net) : Prop :=
  (∀ p, p ∈ inflight n → p_value p ≠ None)
  ∧ ∀ i a s, cfg !! i = Some a → nodes n !! i = Some s → has_belief a s.

(** ** Round 0 under any schedule *)

(** The nodes that a schedule starts, in the order of the requests. *)
Definition starters (sched : list NetEvent) : list nat :=
  omap (λ e, match e with
             | At i GetStart => Some i
             | _ => None
             end) sched.

(** The votes of round 0 addressed to node [i] in a pool of votes. *)
Definition round0_to (i : nat) (pool : list Packet) : list Packet :=
  filter (λ p, dst p = Z.of_nat i ∧ p_step p = 0) pool.

(** A node before and after its only [/start]: before, it has no
    invocation, no decision, and (unless faulty or killed) its initial
    value as belief; after, [started_once] holds. *)
Definition node_phase (a : NodeArgs) (s : Sys) : Prop :=
  Forall pc_in_loop (handlers s)
  ∧ (handlers s = [] →
       not_started s
       ∧ (isFaulty a = false → killed (nodeState (world s)) = false →
          x (nodeState (world s)) = Some (initialValue a)))
  ∧ (handlers s ≠ [] → started_once a s).

(** Node [j] of the network has been started. *)
Definition has_started (n : Net) (j : nat) : Prop :=
  ∃ s, nodes n !! j = Some s ∧ handlers s ≠ [].

(** In round 0 a node gets from each peer that has started at most one
    vote, which carries the initial value of that peer. *)
Definition first_round_votes (cfg : list NodeArgs) (n : Net) : Prop :=
  (∀ j a s, cfg !! j = Some a → nodes n !! j = Some s → node_phase a s)
  ∧ ∀ i,
      NoDup (src <$> round0_to i (inflight n ++ delivered n))
      ∧ ∀ p, p ∈ round0_to i (inflight n ++ delivered n) →
          ∃ j a, src p = Z.of_nat j ∧ cfg !! j = Some a ∧ has_started n j
                 ∧ p_value p = Some (initialValue a).

(** ** Further vocabulary *)

(** The values of the votes that a trace posts for [round], in order. *)
Definition votes_posted (round : Z) (t : list Event) : list Value :=
  omap (λ e, match e with
             | PostMessage st v => if decide (st = round) then Some v else None
             | _ => None
             end) t.

(** The number of continuations of invocation [h] in a trace. *)
Definition is_resume (h : nat) (e : Event) : bool :=
  match e with
  | Resume h' _ => bool_decide (h' = h)
  | _ => false
  end.

Definition resumes (h : nat) (t : list Event) : nat :=
  length (filter (λ e, is_resume h e = true) t).

(** How many continuations an invocation still needs before it has
    returned: two per round left. *)
Definition awaits_left (pc : Pc) : nat :=
  match pc with
  | AwaitSend round => 2 * Z.to_nat (MAX_STEPS - round)
  | AwaitDelay round => 2 * Z.to_nat (MAX_STEPS - round) - 1
  | Returned => 0
  end.

(** The read routes. *)
Definition is_read (e : Event) : Prop :=
  match e with
  | GetStatus | GetState => True
  | _ => False
  end.

#[global] Instance is_read_dec e : Decision (is_read e).
Proof. destruct e; simpl; apply _. Defined.

(** The votes among the outputs. *)
Definition is_vote (o : Output) : bool :=
  match o with
  | Sent _ _ _ => true
  | Reply _ => false
  end.

Definition votes_of (out : list Output) : list Output :=
  filter (λ o, is_vote o = true) out.

(** A node that takes no part in the rounds: faulty, or with F > N/2. *)
Definition sits_out (a : NodeArgs) : Prop :=
  isFaulty a = true ∨ N a < 2 * F a.

(** The two numeric values. *)
Definition numeric (v : option Value) : Prop :=
  v = Some V0 ∨ v = Some V1.

(** What holds of every state a node reaches, as far as its posts are
    concerned: its invocations are at rounds below the cap, it has a
    belief to post, and it has no invocation in the loop if it sits out. *)
Definition post_ready (a : NodeArgs) (s : Sys) : Prop :=
  Forall pc_in_loop (handlers s)
  ∧ has_belief a s
  ∧ (sits_out a → all_returned s).

(** The round value 11 marks a node found infeasible at its start. *)
Definition sentinel_marks_infeasible (a : NodeArgs) (s : Sys) : Prop :=
  k (nodeState (world s)) = Some 11 →
  isFaulty a = false ∧ N a < 2 * F a
  ∧ killed (nodeState (world s)) = true
  ∧ decided (nodeState (world s)) = Some false
  ∧ is_Some (x (nodeState (world s))).

(** A non-faulty node that is not killed has all three fields set. *)
Definition fields_set (a : NodeArgs) (s : Sys) : Prop :=
  isFaulty a = false →
  killed (nodeState (world s)) = false →
  is_Some (x (nodeState (world s)))
  ∧ is_Some (decided (nodeState (world s)))
  ∧ is_Some (k (nodeState (world s))).

(** ** Invocations on a killed node *)


(** ** Proof steps *)

(** The segments of [/start] are straight-line code with a few tests;
    a fact about one segment is proved by going through its branches,
    with the field updates unfolded. *)
Ltac setters := unfold set_k, set_x, set_decided, set_killed in *.

Ltac branches :=
  repeat case_match; simpl in *; simplify_eq; simpl in *; simplify_eq.

(** ** Basic facts *)

Lemma half_lt_spec n f : half_lt n f = true ↔ n < 2 * f.
Proof.
  unfold half_lt, Qcompare; simpl.
  rewrite !Z.mul_1_r. change (Z.pos (1 * 2)) with 2.
  destruct (Z.compare_spec n (f * 2)); split; intros; try done; lia.
Qed.

Lemma half_lt_false n f : half_lt n f = false ↔ 2 * f ≤ n.
Proof.
  destruct (half_lt n f) eqn:E.
  - apply half_lt_spec in E. split; [done | lia].
  - split; [intros _ | done].
    destruct (decide (n < 2 * f)) as [H | H]; [| lia].
    apply half_lt_spec in H. congruence.
Qed.

Lemma votes_for_nonneg v votes : 0 ≤ votes_for v votes.
Proof. induction votes as [| v' rest IH]; simpl; [lia |]. case_decide; lia. Qed.

Lemma votes_for_app v l1 l2 :
  votes_for v (l1 ++ l2) = votes_for v l1 + votes_for v l2.
Proof. induction l1 as [| v' rest IH]; simpl; [done |]. rewrite IH. lia. Qed.

(** The count the code makes, a double [filter] and a [length], is the
    direct count, for the two numeric values. *)
Lemma count_numeric (v : Value) (votes : list Value) :
  v ≠ VQ →
  Z.of_nat (length (filter (λ v', v' = v) (filter (λ v', v' ≠ VQ) votes)))
  = votes_for v votes.
Proof.
  intros Hv. induction votes as [| v' rest IH]; [done |].
  simpl. rewrite filter_cons.
  destruct (decide (v' ≠ VQ)) as [Hq | Hq].
  - rewrite filter_cons.
    destruct (decide (v' = v)) as [-> | Hne].
    + rewrite length_cons, Nat2Z.inj_succ, IH. lia.
    + rewrite IH. lia.
  - destruct (decide (v' = v)) as [-> | Hne]; [done |]. rewrite IH. lia.
Qed.

Lemma count_x (v : Value) (votes : list Value) :
  v ≠ VQ →
  Z.of_nat (length (filter (λ v', Some v' = Some v) (filter (λ v', v' ≠ VQ) votes)))
  = votes_for v votes.
Proof.
  intros Hv. rewrite <- (count_numeric v votes Hv). f_equal. f_equal.
  apply list_filter_iff. intros v'. split; congruence.
Qed.

Lemma filter_numeric_idemp (votes : list Value) :
  filter (λ v, v ≠ VQ) (filter (λ v, v ≠ VQ) votes) = filter (λ v, v ≠ VQ) votes.
Proof.
  induction votes as [| v rest IH]; [done |].
  rewrite filter_cons. case_decide; [| done].
  rewrite filter_cons. case_decide; [| done]. by rewrite IH.
Qed.

Lemma randomBit_numeric u : randomBit u ≠ VQ.
Proof. unfold randomBit. by destruct (Qcompare u (1 # 2)). Qed.

Lemma tally_numeric votes u : tally votes u ≠ VQ.
Proof.
  unfold tally. repeat case_decide; try done. apply randomBit_numeric.
Qed.

(** [tally] in terms of the direct counts. *)
Lemma tally_votes_for votes u :
  tally votes u =
    if decide (votes_for V1 votes > votes_for V0 votes) then V1
    else if decide (votes_for V0 votes > votes_for V1 votes) then V0
    else randomBit u.
Proof. unfold tally. by rewrite !count_numeric. Qed.

(** [process_round] in terms of [tally] and the direct counts. *)
Lemma process_round_eq a round u w :
  process_round a round u w =
    let v := tally (inbox w round) u in
    let w1 := set_x (Some v) w in
    if decide (votes_for v (inbox w round) >= N a - F a)
    then (set_decided (Some true) w1, true)
    else (w1, false).
Proof.
  unfold process_round, inbox. simpl.
  rewrite count_x by apply tally_numeric. done.
Qed.

(** ** Traces *)

Lemma exec_cons a e t s :
  exec a (e :: t) s =
    ((exec a t (step a e s).1).1, (step a e s).2 ++ (exec a t (step a e s).1).2).
Proof.
  simpl. destruct (step a e s) as [s1 o1]. simpl.
  by destruct (exec a t s1) as [s2 o2].
Qed.

Lemma exec_app a t1 t2 s :
  exec a (t1 ++ t2) s =
    ((exec a t2 (exec a t1 s).1).1, (exec a t1 s).2 ++ (exec a t2 (exec a t1 s).1).2).
Proof.
  revert s. induction t1 as [| e t1 IH]; intros s.
  - simpl. by destruct (exec a t2 s).
  - rewrite <- app_comm_cons, !exec_cons, IH. simpl. by rewrite app_assoc.
Qed.

Lemma run_app a t1 t2 : run a (t1 ++ t2) = (exec a t2 (run a t1)).1.
Proof. unfold run. by rewrite exec_app. Qed.

(** Invariants are proved event by event. *)
Lemma exec_invariant a (P : Sys → Prop) (E : Event → Prop) :
  (∀ e s, E e → P s → P (step a e s).1) →
  ∀ t s, Forall E t → P s → P (exec a t s).1.
Proof.
  intros Hstep t. induction t as [| e t IH]; intros s Ht Hs; [done |].
  rewrite exec_cons. simpl. inversion_clear Ht. apply IH; [done |].
  by apply Hstep.
Qed.

Lemma silent_nil : silent [].
Proof. intros dest st v H. by apply elem_of_nil in H. Qed.

Lemma silent_app o1 o2 : silent o1 → silent o2 → silent (o1 ++ o2).
Proof.
  intros H1 H2 dest st v [H | H]%elem_of_app; [by eapply H1 | by eapply H2].
Qed.

Lemma silent_reply r : silent [Reply r].
Proof. intros dest st v H. apply list_elem_of_singleton in H. discriminate. Qed.

Lemma exec_silent a (P : Sys → Prop) (E : Event → Prop) :
  (∀ e s, E e → P s → P (step a e s).1 ∧ silent (step a e s).2) →
  ∀ t s, Forall E t → P s → silent (exec a t s).2.
Proof.
  intros Hstep t. induction t as [| e t IH]; intros s Ht Hs.
  - apply silent_nil.
  - rewrite exec_cons. simpl. inversion_clear Ht.
    destruct (Hstep e s) as [HP Hout]; [done | done |].
    apply silent_app; [done |]. by apply IH.
Qed.

(** ** The routes, one by one *)

Lemma sys_eta s : mkSys (world s) (handlers s) = s.
Proof. by destruct s. Qed.

Lemma step_message_killed a st v s :
  killed (nodeState (world s)) = true →
  step a (PostMessage st v) s =
    (s, [Reply (mkResponse 400 (BError "Node is stopped"))]).
Proof.
  intros Hk. unfold step, message. rewrite Hk. by rewrite sys_eta.
Qed.

Lemma step_message_live a st v s :
  killed (nodeState (world s)) = false →
  step a (PostMessage st v) s =
    (mkSys (mkWorld (nodeState (world s))
              (<[st := inbox (world s) st ++ [v]]> (receivedMessages (world s))))
           (handlers s),
     [Reply (mkResponse 200 (BReceived true))]).
Proof.
  intros Hk. unfold step, message, inbox. rewrite Hk.
  by destruct (receivedMessages (world s) !! st).
Qed.

Lemma step_stop a s :
  step a GetStop s =
    (mkSys (mkWorld stopped (receivedMessages (world s))) (handlers s),
     [Reply (mkResponse 200 (BStatus "stopped"))]).
Proof. done. Qed.

(** C7: a vote posted to a killed participant is answered by the
    stopped error (status 400, error "Node is stopped") and changes
    nothing: the inbox of every round is as it was. *)
Theorem message_after_stop_rejected (a : NodeArgs) (st : Z) (v : Value) (s : Sys) :
  killed (nodeState (world s)) = true →
  (step a (PostMessage st v) s).2 =
    [Reply (mkResponse 400 (BError "Node is stopped"))]
  ∧ (step a (PostMessage st v) s).1 = s
  ∧ ∀ round, inbox (world (step a (PostMessage st v) s).1) round
             = inbox (world s) round.
Proof.
  intros Hk. by rewrite step_message_killed.
Qed.

(** C9: [stop] always answers with the confirmation (status 200),
    leaves [killed = true] and belief, decided and round null, whatever
    the state it is called in (so also after termination), and a second
    [stop] changes nothing and answers the same. *)
Theorem stop_idempotent (a : NodeArgs) (s : Sys) :
  let s1 := (step a GetStop s).1 in
  let s2 := (step a GetStop s1).1 in
  nodeState (world s1) = stopped
  ∧ s2 = s1
  ∧ (step a GetStop s).2 = [Reply (mkResponse 200 (BStatus "stopped"))]
  ∧ (step a GetStop s1).2 = [Reply (mkResponse 200 (BStatus "stopped"))]
  ∧ receivedMessages (world s1) = receivedMessages (world s)
  ∧ ∀ t, nodeState (world (exec a (t ++ [GetStop]) s1).1) = stopped.
Proof.
  simpl. repeat split.
  intros t. by rewrite exec_app.
Qed.

(** ** The tally *)

Lemma tally_abstain_irrelevant votes u :
  tally (filter (λ v, v ≠ VQ) votes) u = tally votes u.
Proof. unfold tally. by rewrite filter_numeric_idemp. Qed.

(** C5: in the tally of a round the new belief is computed from the
    votes buffered for that round with the abstain votes removed; it is
    the value with strictly more votes, and on a tie, in particular with
    no vote at all, the outcome of the coin flip. *)
Theorem tally_majority_rule (a : NodeArgs) (round : Z) (u : Q) (w : World) :
  let votes := inbox w round in
  let belief := x (nodeState (process_round a round u w).1) in
  belief = Some (tally votes u)
  ∧ belief = Some (tally (filter (λ v, v ≠ VQ) votes) u)
  ∧ (votes_for V1 votes > votes_for V0 votes → belief = Some V1)
  ∧ (votes_for V0 votes > votes_for V1 votes → belief = Some V0)
  ∧ (votes_for V0 votes = votes_for V1 votes → belief = Some (randomBit u))
  ∧ (votes = [] → belief = Some (randomBit u)).
Proof.
  intros votes belief.
  assert (belief = Some (tally votes u)) as Hb.
  { unfold belief. rewrite process_round_eq. simpl. by case_decide. }
  rewrite Hb, tally_abstain_irrelevant, tally_votes_for.
  repeat split.
  - intros H. by rewrite decide_True.
  - intros H. rewrite decide_False by lia. by rewrite decide_True.
  - intros H. rewrite !decide_False by lia. done.
  - intros ->. simpl. done.
Qed.

(** ** The segments of [/start] *)

Lemma start_killed a w :
  killed (nodeState w) = true →
  start a w = (w, [Reply (mkResponse 400 (BError "Node is stopped"))], Returned).
Proof. intros Hk. unfold start. by rewrite Hk. Qed.

Lemma start_faulty a w :
  killed (nodeState w) = false → isFaulty a = true →
  start a w =
    (mkWorld (mkNodeState false None None None) (receivedMessages w),
     [Reply (mkResponse 200 (BStatus "Faulty node, not participating"))],
     Returned).
Proof.
  intros Hk Hf. unfold start. rewrite Hk, Hf.
  unfold set_k, set_decided, set_x. simpl. by rewrite Hk.
Qed.

Lemma start_infeasible a w :
  killed (nodeState w) = false → isFaulty a = false → N a < 2 * F a →
  start a w =
    (mkWorld (mkNodeState true (Some (default V1 (x (nodeState w))))
                (Some false) (Some 11))
             (receivedMessages w),
     [Reply (mkResponse 200
        (BResult "Exceeding fault tolerance => no finality"
           (Some (default V1 (x (nodeState w)))) (Some false) (Some 11)))],
     Returned).
Proof.
  intros Hk Hf HNF. apply half_lt_spec in HNF.
  unfold start. rewrite Hk, Hf, HNF.
  unfold set_killed, set_k, set_x, set_decided. simpl.
  destruct (x (nodeState w)) eqn:Ex; simpl; by rewrite ?Ex.
Qed.

Lemma start_feasible a w :
  killed (nodeState w) = false → isFaulty a = false → 2 * F a ≤ N a →
  start a w =
    (set_k (Some 0) w, broadcast a 0 (x (nodeState w)), AwaitSend 0).
Proof.
  intros Hk Hf HNF. apply half_lt_false in HNF.
  unfold start, loop, loop_head. by rewrite Hk, Hf, HNF.
Qed.

Lemma loop_killed a round w :
  killed (nodeState w) = true → loop a round w = finish w.
Proof. intros Hk. unfold loop, loop_head. rewrite Hk. by case_decide. Qed.

Lemma loop_live a round w :
  killed (nodeState w) = false → round < MAX_STEPS →
  loop a round w =
    (set_k (Some round) w, broadcast a round (x (nodeState w)), AwaitSend round).
Proof.
  intros Hk Hr. unfold loop, loop_head. by rewrite Hk, decide_True.
Qed.

Lemma loop_cap a round w : MAX_STEPS ≤ round → loop a round w = finish w.
Proof. intros Hr. unfold loop, loop_head. by rewrite decide_False by lia. Qed.

Lemma broadcast_sent a round xv o :
  o ∈ broadcast a round xv →
  ∃ i, o = Sent i round xv ∧ 0 ≤ i < N a ∧ i ≠ nodeId a.
Proof.
  unfold broadcast. intros (i & Hi & Ho)%list_elem_of_omap.
  case_decide; [| done]. injection Ho as <-.
  exists i. split_and!; try done.
  - apply list_elem_of_fmap in Hi as (n & -> & Hn). lia.
  - apply list_elem_of_fmap in Hi as (n & -> & Hn%elem_of_seq). lia.
Qed.

(** ** Rounds stay within the cap *)

Lemma round_in_range_step a e s :
  2 * F a ≤ N a → round_in_range s → round_in_range (step a e s).1.
Proof.
  intros HNF [Hpc Hk]. apply half_lt_false in HNF as Hhalf.
  destruct e as [| | st v | | | h u]; try done.
  - (* message *)
    destruct (killed (nodeState (world s))) eqn:Ek.
    + by rewrite step_message_killed.
    + by rewrite step_message_live.
  - (* start *)
    unfold round_in_range, step.
    destruct (start a (world s)) as [[w out] pc] eqn:Es. simpl.
    rewrite Forall_app, Forall_singleton.
    unfold start, loop, loop_head, finish in Es. rewrite Hhalf in Es.
    unfold MAX_STEPS in *. setters.
    branches;
      split_and?; try done; try lia.
  - (* resume *)
    unfold round_in_range, step.
    destruct (handlers s !! h) as [pc |] eqn:Eh; [| done].
    destruct (resume a pc u (world s)) as [[w out] pc'] eqn:Es. simpl.
    pose proof (Forall_lookup_1 _ _ _ _ Hpc Eh) as Hin.
    unfold resume, process_round, loop, loop_head, finish in Es.
    setters.
    split.
    + apply Forall_insert; [done |].
      unfold pc_in_loop, MAX_STEPS in *.
      branches;
        try done; try lia.
    + unfold pc_in_loop, MAX_STEPS in *.
      branches;
        try done; try lia.
Qed.

Lemma round_in_range_run a t :
  2 * F a ≤ N a → round_in_range (run a t).
Proof.
  intros HNF. unfold run.
  apply (exec_invariant a round_in_range (λ _, True)).
  - intros e s _. by apply round_in_range_step.
  - by apply Forall_true.
  - split; [constructor |]. simpl. destruct (isFaulty a); [done |].
    unfold MAX_STEPS. lia.
Qed.

(** C2: when F > N/2, [start] on a non-faulty participant that is not
    killed returns at once, without an [await] and without posting any
    vote, with [decided = false], [killed = true], round 11 and the
    belief it had, or 1 if it had none; and 11 exceeds every round value
    of a run in which consensus is feasible, which never passes the cap
    of two. *)
Theorem infeasible_start_sentinel (a : NodeArgs) (w : World) :
  isFaulty a = false →
  killed (nodeState w) = false →
  N a < 2 * F a →
  let '(w', out, pc) := start a w in
  pc = Returned
  ∧ silent out
  ∧ nodeState w' =
      mkNodeState true
        (match x (nodeState w) with Some v => Some v | None => Some V1 end)
        (Some false) (Some 11)
  ∧ receivedMessages w' = receivedMessages w
  ∧ ∀ a' t r, 2 * F a' ≤ N a' →
      k (nodeState (world (run a' t))) = Some r → r ≤ MAX_STEPS ∧ MAX_STEPS < 11.
Proof.
  intros Hf Hk HNF. rewrite start_infeasible by done.
  split_and!; try done.
  - apply silent_reply.
  - simpl. by destruct (x (nodeState w)).
  - intros a' t r HNF' Hr.
    destruct (round_in_range_run a' t HNF') as [_ Hrange].
    rewrite Hr in Hrange. unfold MAX_STEPS in *. lia.
Qed.

(** ** A single [/start]: decisions come from a supermajority *)

Lemma inbox_message_eq w st v :
  inbox (mkWorld (nodeState w) (<[st := inbox w st ++ [v]]> (receivedMessages w))) st
  = inbox w st ++ [v].
Proof. unfold inbox at 1. simpl. by rewrite lookup_insert_eq. Qed.

Lemma inbox_message_ne w st v round :
  st ≠ round →
  inbox (mkWorld (nodeState w) (<[st := inbox w st ++ [v]]> (receivedMessages w))) round
  = inbox w round.
Proof. intros Hne. unfold inbox at 1. simpl. by rewrite lookup_insert_ne. Qed.

Lemma votes_for_message w st v round v' :
  votes_for v' (inbox w round) ≤
  votes_for v'
    (inbox (mkWorld (nodeState w) (<[st := inbox w st ++ [v]]> (receivedMessages w)))
       round).
Proof.
  destruct (decide (st = round)) as [-> | Hne].
  - rewrite inbox_message_eq, votes_for_app.
    pose proof (votes_for_nonneg v' [v]). lia.
  - by rewrite inbox_message_ne.
Qed.

Lemma not_started_step a e s :
  e ≠ GetStart → not_started s → not_started (step a e s).1.
Proof.
  intros He [Hh Hu]. unfold not_started, undecided in *.
  destruct e as [| | st v | | | h u]; try done.
  - destruct (killed (nodeState (world s))) eqn:Ek.
    + by rewrite step_message_killed.
    + by rewrite step_message_live.
  - simpl. by rewrite Hh.
Qed.

Lemma started_once_start a s :
  not_started s → started_once a (step a GetStart s).1.
Proof.
  intros [Hh Hu]. unfold started_once, undecided, step in *.
  destruct (start a (world s)) as [[w out] pc] eqn:Es. simpl.
  rewrite Hh. exists pc. split; [done |].
  unfold start, loop, loop_head, finish in Es.
  unfold MAX_STEPS in *. setters.
  branches;
    split_and?; intros; simplify_eq; try done; try lia; auto.
Qed.

Lemma started_once_step a e s :
  e ≠ GetStart → started_once a s → started_once a (step a e s).1.
Proof.
  intros He (pc & Hh & Hpc).
  destruct e as [| | st v | | | h u]; try done.
  - by exists pc.
  - by exists pc.
  - (* a vote arrives *)
    destruct (killed (nodeState (world s))) eqn:Ek.
    + rewrite step_message_killed by done. by exists pc.
    + rewrite step_message_live by done. exists pc. split; [done |].
      destruct pc as [round | round |]; [done | done |].
      simpl. intros v' r Hd Hx Hk Hr.
      destruct (Hpc v' r Hd Hx Hk Hr) as [Hv Hn]. split; [done |].
      etrans; [exact Hn |]. apply votes_for_message.
  - (* stop *)
    rewrite step_stop. exists pc. split; [done |].
    destruct pc as [round | round |]; simpl; unfold undecided; simpl;
      [by auto | by auto | done].
  - (* the invocation continues *)
    unfold step. rewrite Hh. destruct h as [| h]; simpl; [| by exists pc].
    destruct (resume a pc u (world s)) as [[w out] pc'] eqn:Es. simpl.
    exists pc'. split; [done |].
    destruct pc as [round | round |]; simpl in Es.
    + by simplify_eq.
    + destruct Hpc as [Hu Hk]. unfold undecided in Hu.
      rewrite process_round_eq in Es. simpl in Es.
      pose proof (tally_numeric (inbox (world s) round) u) as Hnum.
      unfold supermajority, inbox in *.
      unfold loop, loop_head, finish in Es.
      unfold MAX_STEPS in *. setters.
      branches;
        split_and?; intros; simplify_eq; try done; try lia; auto;
        destruct Hk; simplify_eq; split; try done; lia.
    + by simplify_eq.
Qed.

Lemma not_started_init a : not_started (init a).
Proof.
  split; [done |]. unfold undecided. simpl. by destruct (isFaulty a).
Qed.

Lemma Forall_not_start (t : list Event) :
  GetStart ∉ t → Forall (λ e, e ≠ GetStart) t.
Proof.
  intros Ht. apply Forall_forall. intros e He ->. done.
Qed.

Lemma started_once_run a pre post :
  GetStart ∉ pre → GetStart ∉ post →
  started_once a (run a (pre ++ GetStart :: post)).
Proof.
  intros Hpre Hpost. rewrite run_app, exec_cons. simpl.
  apply (exec_invariant a (started_once a) (λ e, e ≠ GetStart)).
  - intros e s. apply started_once_step.
  - by apply Forall_not_start.
  - apply started_once_start. unfold run.
    apply (exec_invariant a not_started (λ e, e ≠ GetStart)).
    + intros e s. apply not_started_step.
    + by apply Forall_not_start.
    + apply not_started_init.
Qed.

(** C1, amended: on a participant on which [start] is called once, if
    the state shows [decided = true] with belief [v] and a round [r]
    other than the cap value 2 of the forced decision, then [start] has
    returned, [v] is numeric and the inbox of round [r] holds at least
    N − F votes equal to [v]. *)
Theorem decision_has_supermajority (a : NodeArgs) (pre post : list Event)
    (v : Value) (r : Z) :
  GetStart ∉ pre → GetStart ∉ post →
  let s := run a (pre ++ GetStart :: post) in
  decided (nodeState (world s)) = Some true →
  x (nodeState (world s)) = Some v →
  k (nodeState (world s)) = Some r →
  r ≠ MAX_STEPS →
  handlers s = [Returned]
  ∧ v ≠ VQ
  ∧ N a - F a ≤ votes_for v (inbox (world s) r).
Proof.
  intros Hpre Hpost s Hd Hx Hk Hr.
  destruct (started_once_run a pre post Hpre Hpost) as (pc & Hh & Hpc).
  fold s in Hh, Hpc.
  destruct pc as [round | round |].
  - destruct Hpc as [Hu _]. by destruct Hu.
  - destruct Hpc as [Hu _]. by destruct Hu.
  - split; [done |]. by apply Hpc.
Qed.

(** C1 as stated fails on the forced decision: with N = 4, F = 1 and no
    vote received, [start] ends with [decided = true], belief 1 and
    round 2, and the inbox of round 2 holds no vote at all. *)
Lemma forced_decision_without_votes :
  let a := mkNodeArgs 0 4 1 V0 false in
  let u := (1 # 4)%Q in
  let s := run a [GetStart; Resume 0 u; Resume 0 u; Resume 0 u; Resume 0 u] in
  isFaulty a = false
  ∧ handlers s = [Returned]
  ∧ nodeState (world s) = mkNodeState false (Some V1) (Some true) (Some 2)
  ∧ ¬ (N a - F a ≤ votes_for V1 (inbox (world s) 2)).
Proof. vm_compute. by split_and!. Qed.

(** ** A single [/start] with votes only: termination within the cap *)

Lemma passive_step a e s :
  passive e →
  nodeState (world (step a e s).1) = nodeState (world s)
  ∧ handlers (step a e s).1 = handlers s.
Proof.
  destruct e as [| | st v | | | h u]; try done. intros _.
  destruct (killed (nodeState (world s))) eqn:Ek.
  - by rewrite step_message_killed.
  - by rewrite step_message_live.
Qed.

Lemma passive_exec a t s :
  Forall passive t →
  nodeState (world (exec a t s).1) = nodeState (world s)
  ∧ handlers (exec a t s).1 = handlers s.
Proof.
  intros Ht.
  apply (exec_invariant a
           (λ s', nodeState (world s') = nodeState (world s)
                  ∧ handlers s' = handlers s) passive); [| done | done].
  intros e s' He [Hn Hh].
  destruct (passive_step a e s' He) as [Hn' Hh']. split; congruence.
Qed.

(** One round of the loop, from the broadcast to the next program
    point, when only votes arrive meanwhile. *)
Lemma round_outcome a round xv s m u m' u' :
  handlers s = [AwaitSend round] →
  nodeState (world s) = mkNodeState false xv (Some false) (Some round) →
  Forall passive m → Forall passive m' →
  let s1 := (exec a (m ++ Resume 0 u :: m') s).1 in
  let s2 := (step a (Resume 0 u') s1).1 in
  let v := tally (inbox (world s1) round) u' in
  handlers s1 = [AwaitDelay round]
  ∧ nodeState (world s1) = nodeState (world s)
  ∧ if (process_round a round u' (world s1)).2 then
      handlers s2 = [Returned]
      ∧ nodeState (world s2) = mkNodeState false (Some v) (Some true) (Some round)
    else if decide (round + 1 < MAX_STEPS) then
      handlers s2 = [AwaitSend (round + 1)]
      ∧ nodeState (world s2) =
          mkNodeState false (Some v) (Some false) (Some (round + 1))
    else
      handlers s2 = [Returned]
      ∧ nodeState (world s2) =
          mkNodeState false (Some V1) (Some true) (Some MAX_STEPS).
Proof.
  intros Hh Hn Hm Hm' s1 s2 v.
  assert (handlers s1 = [AwaitDelay round]
          ∧ nodeState (world s1) = nodeState (world s)) as [Hh1 Hn1].
  { unfold s1. rewrite exec_app, exec_cons. cbn [fst snd].
    destruct (passive_exec a m s Hm) as [Hna Hha].
    set (sa := (exec a m s).1) in *.
    destruct (passive_exec a m' (step a (Resume 0 u) sa).1 Hm') as [Hnb Hhb].
    rewrite Hnb, Hhb. unfold step. rewrite Hha, Hh. simpl.
    split; congruence. }
  split; [done |]. split; [done |].
  subst s2 v. clearbody s1.
  destruct s1 as [[ns1 b1] h1]. simpl in Hh1, Hn1. subst h1.
  rewrite Hn in Hn1. subst ns1.
  unfold step. simpl. rewrite process_round_eq. simpl.
  case_decide as Hbrk; simpl; [done |].
  unfold loop, loop_head. simpl.
  case_decide; simpl; done.
Qed.

Lemma passive_idle t : Forall passive t → Forall idle t.
Proof. intros H. eapply Forall_impl; [exact H |]. by intros []. Qed.

Lemma idle_step a e s :
  idle e → all_returned s →
  nodeState (world (step a e s).1) = nodeState (world s)
  ∧ handlers (step a e s).1 = handlers s
  ∧ silent (step a e s).2.
Proof.
  intros He Hret. destruct e as [| | st v | | | h u]; try done.
  - split_and!; try done. apply silent_reply.
  - split_and!; try done. apply silent_reply.
  - destruct (killed (nodeState (world s))) eqn:Ek.
    + rewrite step_message_killed by done. split_and!; try done. apply silent_reply.
    + rewrite step_message_live by done. split_and!; try done. apply silent_reply.
  - unfold step. destruct (handlers s !! h) as [pc |] eqn:Eh.
    + pose proof (Forall_lookup_1 _ _ _ _ Hret Eh) as ->. simpl.
      split_and!; [done | by apply list_insert_id | apply silent_nil].
    + split_and!; try done. apply silent_nil.
Qed.

Lemma idle_exec a t s :
  Forall idle t → all_returned s →
  nodeState (world (exec a t s).1) = nodeState (world s)
  ∧ handlers (exec a t s).1 = handlers s.
Proof.
  intros Ht Hret.
  apply (exec_invariant a
           (λ s', nodeState (world s') = nodeState (world s)
                  ∧ handlers s' = handlers s) idle); [| done | done].
  intros e s' He [Hn Hh].
  destruct (idle_step a e s' He) as (Hn' & Hh' & _).
  - unfold all_returned. by rewrite Hh.
  - split; congruence.
Qed.

(** C4: when F ≤ N/2, on a non-faulty participant that nobody stops,
    [start] has returned with [decided = true] once its two rounds have
    been resumed (two [await]s each), whatever votes arrive before,
    between and after; the round is then at most the cap, and if
    neither round reached the supermajority the state is belief 1,
    decided, round 2. *)
Theorem bounded_termination (a : NodeArgs)
    (pre m0 m1 m2 m3 post : list Event) (u0 u1 u2 u3 : Q) :
  isFaulty a = false →
  2 * F a ≤ N a →
  Forall passive pre → Forall passive m0 → Forall passive m1 →
  Forall passive m2 → Forall passive m3 → Forall passive post →
  let t1 := pre ++ GetStart :: m0 ++ Resume 0 u0 :: m1 in
  let t2 := t1 ++ Resume 0 u1 :: m2 ++ Resume 0 u2 :: m3 in
  let s := run a (t2 ++ Resume 0 u3 :: post) in
  handlers s = [Returned]
  ∧ killed (nodeState (world s)) = false
  ∧ decided (nodeState (world s)) = Some true
  ∧ (∃ r, k (nodeState (world s)) = Some r ∧ 0 ≤ r ≤ MAX_STEPS)
  ∧ ((process_round a 0 u1 (world (run a t1))).2 = false →
     (process_round a 1 u3 (world (run a t2))).2 = false →
     nodeState (world s) = mkNodeState false (Some V1) (Some true) (Some MAX_STEPS)).
Proof.
  intros Hf HNF Hpre Hm0 Hm1 Hm2 Hm3 Hpost t1 t2 s.
  (* up to the first broadcast *)
  destruct (passive_exec a pre (init a) Hpre) as [Hn0 Hh0]. fold (run a pre) in Hn0, Hh0.
  set (sb := (step a GetStart (run a pre)).1).
  assert (handlers sb = [AwaitSend 0]
          ∧ nodeState (world sb) =
              mkNodeState false (Some (initialValue a)) (Some false) (Some 0))
    as [Hhb Hnb].
  { unfold sb, step. rewrite start_feasible; [| by rewrite Hn0; simpl | done | done].
    simpl. rewrite Hh0, Hn0. simpl. by rewrite Hf. }
  (* round 0 *)
  assert (run a t1 = (exec a (m0 ++ Resume 0 u0 :: m1) sb).1) as Ht1.
  { unfold t1. by rewrite run_app, exec_cons. }
  pose proof (round_outcome a 0 _ sb m0 u0 m1 u1 Hhb Hnb Hm0 Hm1) as R0.
  rewrite <- Ht1 in R0. cbn zeta in R0. destruct R0 as (Hh1 & Hn1 & R0).
  set (sc := (step a (Resume 0 u1) (run a t1)).1) in *.
  assert (s = (exec a post
                 (step a (Resume 0 u3)
                    (exec a (m2 ++ Resume 0 u2 :: m3) sc).1).1).1) as Hs.
  { unfold s, t2. rewrite run_app, exec_cons. cbn [fst snd].
    by rewrite run_app, exec_cons. }
  assert (run a t2 = (exec a (m2 ++ Resume 0 u2 :: m3) sc).1) as Ht2.
  { unfold t2. by rewrite run_app, exec_cons. }
  destruct (process_round a 0 u1 (world (run a t1))).2 eqn:Ebrk0.
  - (* decided in round 0 *)
    destruct R0 as [Hhc Hnc].
    assert (all_returned sc) as Hret.
    { unfold all_returned. rewrite Hhc. by constructor. }
    assert (nodeState (world s) = nodeState (world sc)
            ∧ handlers s = handlers sc) as [Hns Hhs].
    { rewrite Hs.
      destruct (idle_exec a (m2 ++ Resume 0 u2 :: m3) sc) as [Ha Hb]; [| done |].
      { apply Forall_app. split; [by apply passive_idle |].
        constructor; [done | by apply passive_idle]. }
      set (sd := (exec a (m2 ++ Resume 0 u2 :: m3) sc).1) in *.
      destruct (idle_step a (Resume 0 u3) sd) as (Ha' & Hb' & _); [done | |].
      { unfold all_returned. by rewrite Hb. }
      set (se := (step a (Resume 0 u3) sd).1) in *.
      destruct (idle_exec a post se) as [Ha'' Hb''].
      { by apply passive_idle. }
      { unfold all_returned. by rewrite Hb', Hb. }
      split; congruence. }
    rewrite Hns, Hhs, Hhc, Hnc. simpl. split_and!; try done.
    exists 0. unfold MAX_STEPS. split; [done | lia].
  - (* round 1 *)
    rewrite decide_True in R0 by (unfold MAX_STEPS; lia).
    destruct R0 as [Hhc Hnc].
    pose proof (round_outcome a (0 + 1) _ sc m2 u2 m3 u3 Hhc Hnc Hm2 Hm3) as R1.
    rewrite <- Ht2 in R1. cbn zeta in R1. destruct R1 as (Hh2 & Hn2 & R1).
    set (sd := (step a (Resume 0 u3) (run a t2)).1) in *.
    rewrite <- Ht2 in Hs. fold sd in Hs.
    destruct (passive_exec a post sd Hpost) as [Hns Hhs]. rewrite <- Hs in Hns, Hhs.
    rewrite Hns, Hhs.
    change (0 + 1) with 1 in R1.
    destruct (process_round a 1 u3 (world (run a t2))).2 eqn:Ebrk1.
    + destruct R1 as [-> ->]. simpl. split_and!; try done.
      exists 1. unfold MAX_STEPS. split; [done | lia].
    + rewrite decide_False in R1 by (unfold MAX_STEPS; lia).
      destruct R1 as [-> ->]. simpl. split_and!; try done.
      exists MAX_STEPS. unfold MAX_STEPS. split; [done | lia].
Qed.

(** ** Terminal states *)


(** A [stop] that arrives while a round is in progress: the loop is left
    at the head of the next round, and the forced decision after the
    loop then writes belief 1, decided and round 2 on the killed
    participant. *)
Lemma stop_during_round_then_forced_decision :
  let a := mkNodeArgs 0 4 1 V0 false in
  let u := (1 # 4)%Q in
  let t := [GetStart; Resume 0 u; GetStop] in
  nodeState (world (run a t)) = stopped
  ∧ nodeState (world (run a (t ++ [Resume 0 u]))) =
      mkNodeState true (Some V1) (Some true) (Some 2).
Proof. vm_compute. by split_and!. Qed.

Lemma killed_step a e s :
  killed (nodeState (world s)) = true →
  killed (nodeState (world (step a e s).1)) = true ∧ silent (step a e s).2.
Proof.
  intros Hk. destruct e as [| | st v | | | h u].
  - split; [done | apply silent_reply].
  - split; [done | apply silent_reply].
  - rewrite step_message_killed by done. split; [done | apply silent_reply].
  - split; [done | apply silent_reply].
  - unfold step. rewrite start_killed by done. split; [done | apply silent_reply].
  - unfold step. destruct (handlers s !! h) as [pc |]; [| split; [done | apply silent_nil]].
    destruct pc as [round | round |]; simpl.
    + split; [done | apply silent_nil].
    + rewrite process_round_eq. simpl.
      case_decide; simpl.
      * unfold finish. simpl. split; [done | apply silent_reply].
      * rewrite loop_killed by done. unfold finish. simpl.
        split; [by case_match | apply silent_reply].
    + split; [done | apply silent_nil].
Qed.

Lemma resumes_other h e : is_resume h e = false → resumes h [e] = 0%nat.
Proof.
  intros He. unfold resumes. rewrite filter_cons_False; [done |]. congruence.
Qed.

Lemma resumes_same h u : resumes h [Resume h u] = 1%nat.
Proof.
  unfold resumes. rewrite filter_cons_True; [done |].
  simpl. by apply bool_decide_eq_true.
Qed.

Lemma resumes_cons h e t : resumes h (e :: t) = (resumes h [e] + resumes h t)%nat.
Proof.
  unfold resumes. rewrite !filter_cons, filter_nil. by case_decide.
Qed.







Lemma killed_resume a s h round u :
  killed (nodeState (world s)) = true →
  handlers s !! h = Some (AwaitDelay round) →
  handlers (step a (Resume h u) s).1 !! h = Some Returned.
Proof.
  intros Hk Hh. unfold step. rewrite Hh. simpl.
  rewrite process_round_eq. simpl.
  assert (h < length (handlers s))%nat by (by eapply lookup_lt_Some).
  case_decide; simpl.
  - by apply list_lookup_insert_eq.
  - rewrite loop_killed by done. simpl. by apply list_lookup_insert_eq.
Qed.

Lemma killed_exec a t s :
  killed (nodeState (world s)) = true →
  killed (nodeState (world (exec a t s).1)) = true ∧ silent (exec a t s).2.
Proof.
  intros Hk. split.
  - apply (exec_invariant a (λ s', killed (nodeState (world s')) = true) (λ _, True));
      [| by apply Forall_true | done].
    intros e s' _ Hk'. by apply killed_step.
  - apply (exec_silent a (λ s', killed (nodeState (world s')) = true) (λ _, True));
      [| by apply Forall_true | done].
    intros e s' _ Hk'. by apply killed_step.
Qed.



(** ** Faulty participants *)

(** C8 as stated fails on the incoming vote: a faulty participant that
    is not killed acknowledges the vote and appends it to its inbox. *)
Lemma faulty_accepts_vote :
  let a := mkNodeArgs 3 4 1 V1 true in
  let r := step a (PostMessage 0 V1) (init a) in
  isFaulty a = true
  ∧ r.2 = [Reply (mkResponse 200 (BReceived true))]
  ∧ inbox (world (init a)) 0 = []
  ∧ inbox (world r.1) 0 = [V1].
Proof. vm_compute. by split_and!. Qed.

Lemma sidelined_step a e s :
  isFaulty a = true → sidelined s →
  sidelined (step a e s).1 ∧ silent (step a e s).2.
Proof.
  intros Hf (Hx & Hd & Hk & Hret). unfold sidelined.
  destruct e as [| | st v | | | h u].
  - split; [done | apply silent_reply].
  - split; [done | apply silent_reply].
  - destruct (killed (nodeState (world s))) eqn:Ek.
    + rewrite step_message_killed by done. split; [done | apply silent_reply].
    + rewrite step_message_live by done. split; [done | apply silent_reply].
  - split; [done | apply silent_reply].
  - unfold step, all_returned.
    destruct (killed (nodeState (world s))) eqn:Ek.
    + rewrite start_killed by done. simpl. split; [| apply silent_reply].
      split_and!; try done. apply Forall_app. split; [done | by constructor].
    + rewrite start_faulty by done. simpl. split; [| apply silent_reply].
      split_and!; try done. apply Forall_app. split; [done | by constructor].
  - destruct (idle_step a (Resume h u) s) as (Hn & Hh & Hsil); [done | done |].
    split; [| done]. unfold all_returned. rewrite Hn, Hh. done.
Qed.

Lemma sidelined_init a : isFaulty a = true → sidelined (init a).
Proof.
  intros Hf. unfold sidelined, all_returned. simpl. rewrite Hf.
  split_and!; try done.
Qed.

(** C8, amended: on a faulty participant, whatever requests are made,
    belief, decided and round stay null, no vote is ever posted, and no
    [start] invocation enters the loop, so that nothing is tallied or
    decided.  [start] reports non-participation, or the stopped error
    once the participant is killed; [stop] confirms; an incoming vote is
    acknowledged and appended to the inbox unless the participant is
    killed. *)
Theorem faulty_never_participates (a : NodeArgs) (t : list Event) :
  isFaulty a = true →
  let s := run a t in
  sidelined s
  ∧ silent (outputs a t)
  ∧ (step a GetStart s).2 =
      [Reply (if killed (nodeState (world s))
              then mkResponse 400 (BError "Node is stopped")
              else mkResponse 200 (BStatus "Faulty node, not participating"))]
  ∧ (step a GetStop s).2 = [Reply (mkResponse 200 (BStatus "stopped"))]
  ∧ ∀ st v,
      (step a (PostMessage st v) s).2 =
        [Reply (if killed (nodeState (world s))
                then mkResponse 400 (BError "Node is stopped")
                else mkResponse 200 (BReceived true))]
      ∧ inbox (world (step a (PostMessage st v) s).1) st =
          if killed (nodeState (world s)) then inbox (world s) st
          else inbox (world s) st ++ [v].
Proof.
  intros Hf s. split_and!.
  - apply (exec_invariant a sidelined (λ _, True)).
    + intros e s' _ Hs'. by apply sidelined_step.
    + by apply Forall_true.
    + by apply sidelined_init.
  - apply (exec_silent a sidelined (λ _, True)).
    + intros e s' _ Hs'. by apply sidelined_step.
    + by apply Forall_true.
    + by apply sidelined_init.
  - unfold step. destruct (killed (nodeState (world s))) eqn:Ek.
    + by rewrite start_killed.
    + by rewrite start_faulty.
  - done.
  - intros st v. destruct (killed (nodeState (world s))) eqn:Ek.
    + by rewrite step_message_killed.
    + rewrite step_message_live by done. simpl. split; [done |].
      apply inbox_message_eq.
Qed.

(** ** What a node posts *)

Lemma finish_sent w dest st v : Sent dest st v ∉ (finish w).1.2.
Proof. unfold finish. simpl. apply silent_reply. Qed.

Lemma loop_sent a round w dest st v :
  Sent dest st v ∈ (loop a round w).1.2 →
  dest ≠ nodeId a ∧ 0 ≤ dest < N a ∧ st = round
  ∧ v = x (nodeState w) ∧ killed (nodeState w) = false.
Proof.
  unfold loop, loop_head.
  case_decide; [| by intros ?%finish_sent].
  destruct (killed (nodeState w)) eqn:Ek; [by intros ?%finish_sent |].
  simpl. intros (i & Ho & Hi & Hne)%broadcast_sent. by simplify_eq.
Qed.

Lemma start_sent a w dest st v :
  Sent dest st v ∈ (start a w).1.2 →
  dest ≠ nodeId a ∧ 0 ≤ dest < N a ∧ st = 0
  ∧ v = x (nodeState w) ∧ killed (nodeState w) = false ∧ isFaulty a = false.
Proof.
  unfold start.
  destruct (killed (nodeState w)) eqn:Ek; [by intros ?%silent_reply |].
  destruct (isFaulty a) eqn:Ef; [by intros ?%silent_reply |].
  destruct (half_lt (N a) (F a)); [by intros ?%silent_reply |].
  intros (? & ? & ? & ? & _)%loop_sent. done.
Qed.

Lemma resume_sent a pc u w dest st v :
  Sent dest st v ∈ (resume a pc u w).1.2 →
  dest ≠ nodeId a ∧ 0 ≤ dest < N a ∧ ∃ v', v = Some v' ∧ v' ≠ VQ.
Proof.
  destruct pc as [round | round |]; simpl; [by intros ?%elem_of_nil | | by intros ?%elem_of_nil].
  rewrite process_round_eq. simpl.
  case_decide; [by intros ?%finish_sent |].
  intros (? & ? & ? & Hv & ?)%loop_sent. split_and!; try done; try lia.
  eexists. split; [exact Hv |]. apply tally_numeric.
Qed.

Lemma step_sent a e s dest st v :
  Sent dest st v ∈ (step a e s).2 →
  dest ≠ nodeId a ∧ 0 ≤ dest < N a.
Proof.
  destruct e as [| | st' v' | | | h u]; simpl.
  - by intros ?%silent_reply.
  - by intros ?%silent_reply.
  - destruct (message st' v' (world s)). by intros ?%silent_reply.
  - by intros ?%silent_reply.
  - destruct (start a (world s)) as [[w out] pc] eqn:Es. simpl.
    intros Hin. pose proof (start_sent a (world s) dest st v) as H.
    rewrite Es in H. destruct (H Hin) as (? & ? & _). done.
  - destruct (handlers s !! h) as [pc |]; [| by intros ?%elem_of_nil].
    destruct (resume a pc u (world s)) as [[w out] pc'] eqn:Es. simpl.
    intros Hin. pose proof (resume_sent a pc u (world s) dest st v) as H.
    rewrite Es in H. destruct (H Hin) as (? & ? & _). done.
Qed.

Lemma step_sent_value a e s dest st v :
  has_belief a s →
  Sent dest st v ∈ (step a e s).2 → v ≠ None.
Proof.
  intros Hb. destruct e as [| | st' v' | | | h u]; simpl.
  - by intros ?%silent_reply.
  - by intros ?%silent_reply.
  - destruct (message st' v' (world s)). by intros ?%silent_reply.
  - by intros ?%silent_reply.
  - destruct (start a (world s)) as [[w out] pc] eqn:Es. simpl.
    intros Hin. pose proof (start_sent a (world s) dest st v) as H.
    rewrite Es in H. destruct (H Hin) as (_ & _ & _ & -> & Hk & Hf).
    by apply Hb.
  - destruct (handlers s !! h) as [pc |]; [| by intros ?%elem_of_nil].
    destruct (resume a pc u (world s)) as [[w out] pc'] eqn:Es. simpl.
    intros Hin. pose proof (resume_sent a pc u (world s) dest st v) as H.
    rewrite Es in H. destruct (H Hin) as (_ & _ & v0 & -> & _). done.
Qed.

Lemma has_belief_step a e s : has_belief a s → has_belief a (step a e s).1.
Proof.
  unfold has_belief. intros Hb Hf.
  destruct e as [| | st v | | | h u].
  - by auto.
  - by auto.
  - destruct (killed (nodeState (world s))) eqn:Ek.
    + rewrite step_message_killed by done. simpl. congruence.
    + rewrite step_message_live by done. simpl. auto.
  - done.
  - unfold step.
    destruct (start a (world s)) as [[w out] pc] eqn:Es. simpl.
    unfold start, loop, loop_head, finish in Es. rewrite Hf in Es.
    setters.
    branches;
      try done; auto; try (intros; congruence).
  - unfold step. destruct (handlers s !! h) as [pc |]; [| by auto].
    destruct (resume a pc u (world s)) as [[w out] pc'] eqn:Es. simpl.
    destruct pc as [round | round |]; simpl in Es; [by simplify_eq; auto | | by simplify_eq; auto].
    rewrite process_round_eq in Es. simpl in Es.
    unfold loop, loop_head, finish in Es.
    setters.
    branches;
      try done; auto; try (intros; congruence).
Qed.

Lemma has_belief_init a : has_belief a (init a).
Proof. intros Hf _. simpl. by rewrite Hf. Qed.

(** Only [/message] writes the inbox. *)
Lemma step_keeps_inbox a e s :
  (∀ st v, e ≠ PostMessage st v) →
  receivedMessages (world (step a e s).1) = receivedMessages (world s).
Proof.
  intros He. destruct e as [| | st v | | | h u]; try done.
  - by destruct (He st v).
  - unfold step.
    destruct (start a (world s)) as [[w out] pc] eqn:Es. simpl.
    unfold start, loop, loop_head, finish in Es.
    setters.
    branches; done.
  - unfold step. destruct (handlers s !! h) as [pc |]; [| done].
    destruct (resume a pc u (world s)) as [[w out] pc'] eqn:Es. simpl.
    destruct pc as [round | round |]; simpl in Es; [by simplify_eq | | by simplify_eq].
    unfold process_round, loop, loop_head, finish in Es.
    setters.
    branches; done.
Qed.

(** ** The network *)

Lemma net_invariant cfg (P : Net → Prop) (E : NetEvent → Prop) :
  (∀ e n, E e → P n → P (net_step cfg e n)) →
  ∀ sched n, Forall E sched → P n → P (net_exec cfg sched n).
Proof.
  intros Hstep sched. induction sched as [| e sched IH]; intros n Hs Hn; [done |].
  simpl. inversion_clear Hs. apply IH; [done |]. by apply Hstep.
Qed.

Lemma packets_elem i out p :
  p ∈ packets i out ↔ ∃ dest st v, p = mkPacket i dest st v ∧ Sent dest st v ∈ out.
Proof.
  unfold packets. rewrite list_elem_of_omap. split.
  - intros ([dest st v | r] & Hin & Heq); [| done].
    injection Heq as <-. by exists dest, st, v.
  - intros (dest & st & v & -> & Hin). by exists (Sent dest st v).
Qed.

Lemma received_by_snoc i round log p :
  received_by i round (log ++ [p]) =
    received_by i round log ++
      (if decide (dst p = Z.of_nat i ∧ p_step p = round)
       then option_list (p_value p) else []).
Proof.
  unfold received_by. rewrite filter_app, omap_app. f_equal.
  rewrite filter_cons, filter_nil. case_decide; [| done].
  simpl. by destruct (p_value p).
Qed.

Lemma node_at_Some d i : node_at d = Some i → d = Z.of_nat i.
Proof. unfold node_at. case_decide; [| done]. intros [= <-]. lia. Qed.

Lemma peer_votes_only_step cfg e n :
  well_addressed cfg → driver_event e →
  peer_votes_only cfg n → peer_votes_only cfg (net_step cfg e n).
Proof.
  intros Hwa He [Hsrc Hbox]. destruct e as [i ev | j]; unfold net_step.
  - (* something happens at node i *)
    destruct (cfg !! i) as [a |] eqn:Ea; [| done].
    destruct (nodes n !! i) as [s |] eqn:Es; [| done].
    split; simpl.
    + intros p. rewrite <- app_assoc, !elem_of_app, packets_elem.
      intros [Hin | [(dest & st & v & -> & Hin) | Hin]].
      * apply Hsrc, elem_of_app. by left.
      * apply step_sent in Hin as [Hne _]. rewrite (Hwa i a Ea) in Hne.
        simpl. split; [done |]. exists i. split; [done |].
        by eapply lookup_lt_Some.
      * apply Hsrc, elem_of_app. by right.
    + intros i' s' round Hs'.
      destruct (decide (i = i')) as [<- | Hne].
      * rewrite list_lookup_insert_eq in Hs' by (by eapply lookup_lt_Some).
        injection Hs' as <-. unfold inbox. rewrite step_keeps_inbox.
        -- by apply Hbox.
        -- intros st v ->. done.
      * rewrite list_lookup_insert_ne in Hs' by done. by apply Hbox.
  - (* a vote reaches its destination *)
    destruct (inflight n !! j) as [p |] eqn:Ep; [| done].
    assert (p ∈ inflight n) as Hp by (by eapply list_elem_of_lookup_2).
    assert (peer_votes_only cfg
              (mkNet (nodes n) (delete j (inflight n)) (delivered n))) as Hdrop.
    { split; simpl; [| done]. intros q [Hq | Hq]%elem_of_app.
      - apply Hsrc, elem_of_app. left. by eapply list_elem_of_delete_inv.
      - apply Hsrc, elem_of_app. by right. }
    destruct (p_value p) as [v |] eqn:Ev; [| done].
    destruct (node_at (dst p)) as [i |] eqn:Ei; [| done].
    apply node_at_Some in Ei.
    destruct (cfg !! i) as [a |] eqn:Ea; [| done].
    destruct (nodes n !! i) as [s |] eqn:Es; [| done].
    destruct (killed (nodeState (world s))) eqn:Ek.
    + (* rejected *)
      rewrite step_message_killed by done. simpl.
      rewrite list_insert_id by done. done.
    + rewrite step_message_live by done. simpl.
      split; simpl.
      * intros q [Hq | [Hq | Hq%list_elem_of_singleton]%elem_of_app]%elem_of_app.
        -- apply Hsrc, elem_of_app. left. by eapply list_elem_of_delete_inv.
        -- apply Hsrc, elem_of_app. by right.
        -- subst q. apply Hsrc, elem_of_app. by left.
      * intros i' s' round Hs'. rewrite received_by_snoc.
        destruct (decide (i = i')) as [<- | Hne].
        -- rewrite list_lookup_insert_eq in Hs' by (by eapply lookup_lt_Some).
           injection Hs' as <-. cbn [world].
           destruct (decide (p_step p = round)) as [<- | Hr].
           ++ rewrite inbox_message_eq, (Hbox i s _ Es).
              rewrite decide_True by done. by rewrite Ev.
           ++ rewrite inbox_message_ne by done. rewrite (Hbox i s _ Es).
              rewrite decide_False by tauto. by rewrite app_nil_r.
        -- rewrite list_lookup_insert_ne in Hs' by done.
           rewrite (Hbox i' s' _ Hs').
           rewrite decide_False; [by rewrite app_nil_r |].
           intros [Hd _]. apply Hne. lia.
Qed.

Lemma peer_votes_only_init cfg : peer_votes_only cfg (net_init cfg).
Proof.
  split; simpl.
  - by intros p ?%elem_of_nil.
  - intros i s round Hs. apply list_lookup_fmap_Some in Hs as (a & -> & _).
    done.
Qed.

Lemma votes_have_value_step cfg e n :
  votes_have_value cfg n → votes_have_value cfg (net_step cfg e n).
Proof.
  intros [Hval Hbel]. destruct e as [i ev | j]; unfold net_step.
  - destruct (cfg !! i) as [a |] eqn:Ea; [| done].
    destruct (nodes n !! i) as [s |] eqn:Es; [| done].
    split; simpl.
    + intros p [Hin | (dest & st & v & -> & Hin)%packets_elem]%elem_of_app.
      * by apply Hval.
      * simpl. eapply step_sent_value; [| exact Hin]. by eapply Hbel.
    + intros i' a' s' Ha' Hs'.
      destruct (decide (i = i')) as [<- | Hne].
      * rewrite list_lookup_insert_eq in Hs' by (by eapply lookup_lt_Some).
        simplify_eq. apply has_belief_step. by eapply Hbel.
      * rewrite list_lookup_insert_ne in Hs' by done. by eapply Hbel.
  - destruct (inflight n !! j) as [p |] eqn:Ep; [| done].
    assert (∀ q, q ∈ delete j (inflight n) → p_value q ≠ None) as Hrest.
    { intros q Hq. by eapply Hval, list_elem_of_delete_inv. }
    destruct (p_value p) as [v |] eqn:Ev; [| done].
    destruct (node_at (dst p)) as [i |] eqn:Ei; [| done].
    destruct (cfg !! i) as [a |] eqn:Ea; [| done].
    destruct (nodes n !! i) as [s |] eqn:Es; [| done].
    split; [exact Hrest |]. cbn [nodes].
    intros i' a' s' Ha' Hs'.
    destruct (decide (i = i')) as [<- | Hne].
    + rewrite list_lookup_insert_eq in Hs' by (by eapply lookup_lt_Some).
      simplify_eq. apply has_belief_step. by eapply Hbel.
    + rewrite list_lookup_insert_ne in Hs' by done. by eapply Hbel.
Qed.

(** No node ever posts a vote whose value is [null]. *)
Lemma votes_carry_a_value cfg sched p :
  p ∈ inflight (net_run cfg sched) → p_value p ≠ None.
Proof.
  revert p.
  apply (net_invariant cfg (votes_have_value cfg) (λ _, True)).
  - intros e n _. apply votes_have_value_step.
  - by apply Forall_true.
  - split; simpl.
    + by intros p ?%elem_of_nil.
    + intros i a s Ha Hs. apply list_lookup_fmap_Some in Hs as (a' & -> & Ha').
      simplify_eq. apply has_belief_init.
Qed.

Lemma broadcast_iff a round xv dest st v :
  Sent dest st v ∈ broadcast a round xv ↔
  st = round ∧ v = xv ∧ 0 ≤ dest < N a ∧ dest ≠ nodeId a.
Proof.
  split.
  - intros (i & Ho & Hi & Hne)%broadcast_sent. by simplify_eq.
  - intros (-> & -> & Hd & Hne). unfold broadcast.
    apply list_elem_of_omap. exists dest. split.
    + apply list_elem_of_fmap. exists (Z.to_nat dest). split; [lia |].
      apply elem_of_seq. lia.
    + by rewrite decide_True.
Qed.

Lemma process_round_reads_inbox a round u w w' :
  inbox w round = inbox w' round →
  x (nodeState (process_round a round u w).1)
  = x (nodeState (process_round a round u w').1)
  ∧ (process_round a round u w).2 = (process_round a round u w').2.
Proof.
  intros Hin. rewrite !process_round_eq. simpl. rewrite Hin.
  by case_decide.
Qed.

(** C10: a broadcast posts one vote to each index of [0, N) other than
    the node's own id and none to the node itself, whatever the event
    that triggers it; the tally and the supermajority test of a round
    depend on the inbox of the round only, not on the belief the node
    holds; and in a network where each node has the id of its address
    and votes come from broadcasts only, every vote has a sender other
    than its destination and each inbox holds exactly the votes so
    delivered. *)
Theorem no_vote_to_self :
  (∀ a round xv dest st v,
      Sent dest st v ∈ broadcast a round xv ↔
      st = round ∧ v = xv ∧ 0 ≤ dest < N a ∧ dest ≠ nodeId a)
  ∧ (∀ a e s dest st v,
      Sent dest st v ∈ (step a e s).2 → dest ≠ nodeId a ∧ 0 ≤ dest < N a)
  ∧ (∀ a round u w w',
      inbox w round = inbox w' round →
      x (nodeState (process_round a round u w).1)
      = x (nodeState (process_round a round u w').1)
      ∧ (process_round a round u w).2 = (process_round a round u w').2)
  ∧ (∀ cfg sched,
      well_addressed cfg → Forall driver_event sched →
      let n := net_run cfg sched in
      (∀ p, p ∈ inflight n ++ delivered n →
            src p ≠ dst p ∧ ∃ i, src p = Z.of_nat i ∧ (i < length cfg)%nat)
      ∧ ∀ i s round,
          nodes n !! i = Some s →
          inbox (world s) round = received_by i round (delivered n)).
Proof.
  split_and!.
  - apply broadcast_iff.
  - apply step_sent.
  - apply process_round_reads_inbox.
  - intros cfg sched Hwa Hs.
    apply (net_invariant cfg (peer_votes_only cfg) driver_event); [| done |].
    + intros e n He. by apply peer_votes_only_step.
    + apply peer_votes_only_init.
Qed.

(** ** Round 0 under any schedule *)

Lemma pc_in_loop_step a e s :
  Forall pc_in_loop (handlers s) → Forall pc_in_loop (handlers (step a e s).1).
Proof.
  intros Hpc. destruct e as [| | st v | | | h u]; try done.
  - destruct (killed (nodeState (world s))) eqn:Ek.
    + by rewrite step_message_killed.
    + by rewrite step_message_live.
  - unfold step.
    destruct (start a (world s)) as [[w out] pc] eqn:Es. simpl.
    rewrite Forall_app, Forall_singleton. split; [done |].
    unfold start, loop, loop_head, finish in Es.
    unfold MAX_STEPS in *.
    branches;
      try done; lia.
  - unfold step.
    destruct (handlers s !! h) as [pc |] eqn:Eh; [| done].
    destruct (resume a pc u (world s)) as [[w out] pc'] eqn:Es. simpl.
    pose proof (Forall_lookup_1 _ _ _ _ Hpc Eh) as Hin.
    apply Forall_insert; [done |].
    unfold resume, process_round, loop, loop_head, finish in Es.
    unfold pc_in_loop, MAX_STEPS in *.
    branches;
      try done; lia.
Qed.

Lemma handlers_step a e s :
  handlers (step a e s).1 ≠ [] → handlers s ≠ [] ∨ e = GetStart.
Proof.
  destruct e as [| | st v | | | h u]; try (by left); try (by right).
  - destruct (killed (nodeState (world s))) eqn:Ek.
    + rewrite step_message_killed by done. by left.
    + rewrite step_message_live by done. by left.
  - intros H. left. intros Hh. apply H. unfold step. rewrite Hh. done.
Qed.

Lemma handlers_step_keep a e s :
  handlers s ≠ [] → handlers (step a e s).1 ≠ [].
Proof.
  intros Hh. destruct e as [| | st v | | | h u]; try done.
  - destruct (killed (nodeState (world s))) eqn:Ek.
    + by rewrite step_message_killed.
    + by rewrite step_message_live.
  - unfold step. destruct (start a (world s)) as [[w out] pc]. simpl.
    by destruct (handlers s).
  - unfold step. destruct (handlers s !! h) as [pc |]; [| done].
    destruct (resume a pc u (world s)) as [[w out] pc']. simpl.
    intros Hnil. apply (f_equal length) in Hnil.
    rewrite length_insert in Hnil. by destruct (handlers s).
Qed.

Lemma node_phase_init a : node_phase a (init a).
Proof.
  split_and!.
  - constructor.
  - intros _. split; [apply not_started_init |].
    intros Hf _. simpl. by rewrite Hf.
  - done.
Qed.

Lemma node_phase_step a e s :
  (e = GetStart → handlers s = []) →
  node_phase a s → node_phase a (step a e s).1.
Proof.
  intros Hfirst (Hpc & Hbefore & Hafter).
  split_and!.
  - by apply pc_in_loop_step.
  - intros Hnil.
    assert (handlers s = []) as Hh.
    { destruct (handlers s) eqn:Eh; [done |]. exfalso.
      eapply (handlers_step_keep a e s); [by rewrite Eh | done]. }
    assert (e ≠ GetStart) as He.
    { intros ->. unfold step in Hnil.
      destruct (start a (world s)) as [[w out] pc]. simpl in Hnil.
      by destruct (handlers s). }
    destruct (Hbefore Hh) as [Hns Hx].
    split; [by apply not_started_step |].
    intros Hf. specialize (Hx Hf).
    destruct e as [| | st v | | | h u]; try done.
    + destruct (killed (nodeState (world s))) eqn:Ek.
      * rewrite step_message_killed by done. simpl. congruence.
      * rewrite step_message_live by done. simpl. auto.
    + unfold step. by rewrite Hh.
  - intros Hne.
    destruct (decide (e = GetStart)) as [-> | He].
    + apply started_once_start. by apply Hbefore, Hfirst.
    + apply started_once_step; [done |]. apply Hafter.
      destruct (handlers_step a e s Hne); done.
Qed.

(** The votes a node posts at its start are those of round 0 and carry
    its initial value; later ones are of later rounds. *)
Lemma first_start_sent a s dest st v :
  node_phase a s → handlers s = [] →
  Sent dest st v ∈ (step a GetStart s).2 →
  st = 0 ∧ v = Some (initialValue a).
Proof.
  intros (_ & Hbefore & _) Hh. destruct (Hbefore Hh) as [_ Hx].
  unfold step. destruct (start a (world s)) as [[w out] pc] eqn:Es. simpl.
  intros Hin. pose proof (start_sent a (world s) dest st v) as H.
  rewrite Es in H. destruct (H Hin) as (_ & _ & -> & -> & Hk & Hf).
  split; [done |]. by apply Hx.
Qed.

Lemma resume_sent_round a pc u w dest st v :
  Sent dest st v ∈ (resume a pc u w).1.2 →
  ∃ round, pc = AwaitDelay round ∧ st = round + 1.
Proof.
  destruct pc as [round | round |]; simpl;
    [by intros ?%elem_of_nil | | by intros ?%elem_of_nil].
  rewrite process_round_eq. simpl.
  case_decide; [by intros ?%finish_sent |].
  intros (_ & _ & -> & _)%loop_sent. by exists round.
Qed.

Lemma later_sent a e s dest st v :
  Forall pc_in_loop (handlers s) → e ≠ GetStart →
  Sent dest st v ∈ (step a e s).2 → 1 ≤ st.
Proof.
  intros Hpc He. destruct e as [| | st' v' | | | h u]; try done.
  - by intros ?%silent_reply.
  - by intros ?%silent_reply.
  - unfold step. destruct (message st' v' (world s)). by intros ?%silent_reply.
  - by intros ?%silent_reply.
  - unfold step. destruct (handlers s !! h) as [pc |] eqn:Eh; [| by intros ?%elem_of_nil].
    pose proof (Forall_lookup_1 _ _ _ _ Hpc Eh) as Hin.
    destruct (resume a pc u (world s)) as [[w out] pc'] eqn:Es. simpl.
    intros Hs. pose proof (resume_sent_round a pc u (world s) dest st v) as H.
    rewrite Es in H. destruct (H Hs) as (round & -> & ->).
    simpl in Hin. lia.
Qed.

(** A broadcast posts at most one vote to each destination. *)
Lemma packets_one_per_dest (j : Z) (f : Z → option Output) (l : list Z) (i st : Z) :
  (∀ d o, f d = Some o → ∃ st' v, o = Sent d st' v) →
  NoDup l →
  (length (filter (λ p, dst p = i ∧ p_step p = st) (packets j (omap f l))) ≤ 1)%nat
  ∧ (i ∉ l → filter (λ p, dst p = i ∧ p_step p = st) (packets j (omap f l)) = []).
Proof.
  intros Hf. induction l as [| d l IH]; intros Hnd.
  - split; [simpl; lia | done].
  - apply NoDup_cons in Hnd as [Hd Hnd]. destruct (IH Hnd) as [IH1 IH2].
    simpl. change (list_omap Z Output f l) with (omap f l).
    destruct (f d) as [o |] eqn:Eo.
    + destruct (Hf d o Eo) as (st' & v & ->). simpl.
      rewrite filter_cons. simpl. case_decide as Hi.
      * destruct Hi as [<- _]. rewrite (IH2 Hd). split; [simpl; lia |].
        intros []%not_elem_of_cons. done.
      * split; [done |]. intros []%not_elem_of_cons. by apply IH2.
    + split; [done |]. intros []%not_elem_of_cons. by apply IH2.
Qed.

Lemma broadcast_one_per_dest a j round xv i st :
  (length (filter (λ p, dst p = i ∧ p_step p = st)
             (packets j (broadcast a round xv))) ≤ 1)%nat.
Proof.
  unfold broadcast. apply packets_one_per_dest.
  - intros d o. case_decide; [| done]. intros [= <-]. by eexists _, _.
  - apply NoDup_fmap_2; [apply _ | apply NoDup_seq].
Qed.

Lemma start_posts a w :
  (start a w).1.2 = broadcast a 0 (x (nodeState w))
  ∨ silent (start a w).1.2.
Proof.
  unfold start.
  destruct (killed (nodeState w)) eqn:Ek; [right; apply silent_reply |].
  destruct (isFaulty a); [right; apply silent_reply |].
  destruct (half_lt (N a) (F a)); [right; apply silent_reply |].
  left. by rewrite loop_live.
Qed.

Lemma silent_packets j out : silent out → packets j out = [].
Proof.
  intros Hs. induction out as [| o out IH]; [done |].
  simpl. destruct o as [dest st v | r].
  - exfalso. eapply Hs. by left.
  - apply IH. intros dest st v Hin. eapply Hs. by right.
Qed.

Lemma filter_none {A} (P : A → Prop) `{∀ y, Decision (P y)} (l : list A) :
  (∀ y, y ∈ l → ¬ P y) → filter P l = [].
Proof.
  induction l as [| y l IH]; intros Hl; [done |].
  rewrite filter_cons_False by (apply Hl; by left).
  apply IH. intros z Hz. apply Hl. by right.
Qed.

(** How one network event changes the nodes and the pool of votes. *)
Lemma net_step_nodes cfg e n j s' :
  nodes (net_step cfg e n) !! j = Some s' →
  ∃ s, nodes n !! j = Some s
       ∧ (s' = s
          ∨ ∃ a ev, cfg !! j = Some a ∧ s' = (step a ev s).1
                    ∧ (e = At j ev ∨ ∃ st v, ev = PostMessage st v)).
Proof.
  destruct e as [i ev | k]; unfold net_step.
  - destruct (cfg !! i) as [a |] eqn:Ea; [| by eauto].
    destruct (nodes n !! i) as [s |] eqn:Es; [| by eauto].
    cbn [nodes]. destruct (decide (i = j)) as [<- | Hne].
    + rewrite list_lookup_insert_eq by (by eapply lookup_lt_Some).
      intros [= <-]. exists s. split; [done |]. right. exists a, ev.
      split_and!; [done | done | by left].
    + rewrite list_lookup_insert_ne by done. by eauto.
  - destruct (inflight n !! k) as [p |]; [| by eauto].
    destruct (p_value p) as [v |]; [| by eauto].
    destruct (node_at (dst p)) as [i |]; [| by eauto].
    destruct (cfg !! i) as [a |] eqn:Ea; [| by eauto].
    destruct (nodes n !! i) as [s |] eqn:Es; [| by eauto].
    cbn [nodes]. destruct (decide (i = j)) as [<- | Hne].
    + rewrite list_lookup_insert_eq by (by eapply lookup_lt_Some).
      intros [= <-]. exists s. split; [done |]. right.
      exists a, (PostMessage (p_step p) v).
      split_and!; [done | done | right; by eauto].
    + rewrite list_lookup_insert_ne by done. by eauto.
Qed.

Lemma net_step_nodes_keep cfg e n j s :
  nodes n !! j = Some s → ∃ s', nodes (net_step cfg e n) !! j = Some s'.
Proof.
  intros Hs. apply lookup_lt_is_Some.
  assert (length (nodes (net_step cfg e n)) = length (nodes n)) as ->.
  { destruct e as [i ev | k]; unfold net_step;
      repeat case_match; cbn [nodes]; by rewrite ?length_insert. }
  by eapply lookup_lt_Some.
Qed.

Lemma has_started_step cfg e n j :
  has_started n j → has_started (net_step cfg e n) j.
Proof.
  intros (s & Hs & Hh).
  destruct (net_step_nodes_keep cfg e n j s Hs) as [s' Hs'].
  exists s'. split; [done |].
  destruct (net_step_nodes cfg e n j s' Hs') as (s0 & Hs0 & [-> | (a & ev & _ & -> & _)]);
    simplify_eq; [done |]. by apply handlers_step_keep.
Qed.

Lemma net_step_pool_deliver cfg k n :
  let n' := net_step cfg (Deliver k) n in
  inflight n ++ delivered n ≡ₚ inflight n' ++ delivered n'
  ∨ ∃ p, inflight n ++ delivered n ≡ₚ p :: (inflight n' ++ delivered n').
Proof.
  unfold net_step.
  destruct (inflight n !! k) as [p |] eqn:Ep; [| by left].
  pose proof (delete_Permutation _ _ _ Ep) as Hperm.
  assert (inflight n ++ delivered n
          ≡ₚ p :: (delete k (inflight n) ++ delivered n)) as Hdrop.
  { by rewrite Hperm at 1. }
  assert (inflight n ++ delivered n
          ≡ₚ delete k (inflight n) ++ delivered n ++ [p]) as Hkeep.
  { rewrite Hdrop. rewrite (comm app (delivered n) [p]). simpl.
    by rewrite Permutation_middle. }
  repeat case_match; cbn [inflight delivered]; by eauto.
Qed.

Lemma round0_shrink i (pool pool' : list Packet) :
  (pool ≡ₚ pool' ∨ ∃ p, pool ≡ₚ p :: pool') →
  NoDup (src <$> round0_to i pool) →
  NoDup (src <$> round0_to i pool')
  ∧ ∀ q, q ∈ round0_to i pool' → q ∈ round0_to i pool.
Proof.
  unfold round0_to. intros [Hp | [p Hp]] Hnd.
  - split; [by rewrite <- Hp |]. intros q. by rewrite Hp.
  - rewrite Hp in Hnd. split.
    + rewrite filter_cons in Hnd. case_decide; [| done].
      rewrite fmap_cons in Hnd. by apply NoDup_cons in Hnd as [_ ?].
    + intros q Hq. rewrite Hp. apply list_elem_of_filter.
      apply list_elem_of_filter in Hq as [? ?]. split; [done | by right].
Qed.

Lemma first_round_votes_step cfg e n :
  (∀ j s, e = At j GetStart → nodes n !! j = Some s → handlers s = []) →
  first_round_votes cfg n → first_round_votes cfg (net_step cfg e n).
Proof.
  intros Hfirst [Hph Hr0]. split.
  - (* the nodes *)
    intros j a s' Ha Hs'.
    destruct (net_step_nodes cfg e n j s' Hs')
      as (s & Hs & [-> | (a' & ev & Ha' & -> & Hev)]); [by eapply Hph |].
    simplify_eq. apply node_phase_step; [| by eapply Hph].
    intros ->. destruct Hev as [-> | (st & v & [=])]. by eapply Hfirst.
  - (* the votes of round 0 *)
    intros i. destruct (Hr0 i) as [Hnd Hval].
    assert (∀ p, p ∈ round0_to i (inflight n ++ delivered n) →
              ∃ j a, src p = Z.of_nat j ∧ cfg !! j = Some a
                     ∧ has_started (net_step cfg e n) j
                     ∧ p_value p = Some (initialValue a)) as Hval'.
    { intros p Hp. destruct (Hval p Hp) as (j & a & ? & ? & ? & ?).
      exists j, a. split_and!; try done. by apply has_started_step. }
    destruct e as [j ev | k].
    + (* something happens at node j *)
      unfold net_step in *.
      destruct (cfg !! j) as [a |] eqn:Ea; [| by split].
      destruct (nodes n !! j) as [s |] eqn:Es; [| by split].
      cbn [inflight delivered] in *.
      set (new := packets (Z.of_nat j) (step a ev s).2).
      assert (round0_to i ((inflight n ++ new) ++ delivered n)
              ≡ₚ round0_to i (inflight n ++ delivered n) ++ round0_to i new)
        as Hpool.
      { unfold round0_to. rewrite !filter_app, <- !app_assoc.
        f_equiv. apply Permutation_app_comm. }
      destruct (decide (round0_to i new = [])) as [Hnone | Hsome].
      { rewrite Hnone, app_nil_r in Hpool. split.
        - by rewrite Hpool.
        - intros p Hp. rewrite Hpool in Hp. by apply Hval'. }
      (* node j posts votes of round 0: it is starting *)
      pose proof (Hph j a s Ea Es) as Hphase.
      assert (ev = GetStart) as ->.
      { destruct (decide (ev = GetStart)) as [-> | Hev]; [done |].
        exfalso. apply Hsome. apply filter_none.
        intros p (dest & st & v & -> & Hin)%packets_elem [_ Hst]. simpl in Hst.
        destruct Hphase as [Hpc _].
        pose proof (later_sent a ev s dest st v Hpc Hev Hin). lia. }
      assert (handlers s = []) as Hh by (by eapply Hfirst).
      assert (∀ p, p ∈ round0_to i new →
                src p = Z.of_nat j ∧ p_value p = Some (initialValue a)) as Hnew.
      { intros p [_ (dest & st & v & -> & Hin)%packets_elem]%list_elem_of_filter.
        simpl. split; [done |].
        by destruct (first_start_sent a s dest st v Hphase Hh Hin). }
      assert (length (round0_to i new) ≤ 1)%nat as Hlen.
      { unfold round0_to, new, step.
        destruct (start_posts a (world s)) as [Hb | Hsil];
          destruct (start a (world s)) as [[w out] pc]; simpl in *.
        - rewrite Hb. apply broadcast_one_per_dest.
        - rewrite silent_packets by done. simpl. lia. }
      split.
      * rewrite Hpool, fmap_app. apply NoDup_app. split_and!.
        -- done.
        -- intros z (p & -> & Hp)%list_elem_of_fmap (q & Hq & Hqin)%list_elem_of_fmap.
           destruct (Hval p Hp) as (j' & a' & Hsrc & _ & (s' & Hs' & Hh') & _).
           destruct (Hnew q Hqin) as [Hsrcq _].
           assert (j' = j) as -> by lia. simplify_eq.
        -- destruct (round0_to i new) as [| q [| q' l]]; simpl in *;
             [constructor | apply NoDup_singleton | lia].
      * intros p Hp. rewrite Hpool in Hp.
        apply elem_of_app in Hp as [Hp | Hp]; [by apply Hval' |].
        destruct (Hnew p Hp) as [Hsrc Hv].
        exists j, a. split_and!; try done.
        exists (step a GetStart s).1. split.
        -- cbn [nodes]. apply list_lookup_insert_eq. by eapply lookup_lt_Some.
        -- unfold step. destruct (start a (world s)) as [[w out] pc]. simpl.
           rewrite Hh. done.
    + (* a vote reaches its destination, or is lost *)
      destruct (round0_shrink i (inflight n ++ delivered n)
                  (inflight (net_step cfg (Deliver k) n)
                   ++ delivered (net_step cfg (Deliver k) n)))
        as [Hnd' Hsub]; [apply net_step_pool_deliver | done |].
      split; [done |]. intros p Hp. by apply Hval', Hsub.
Qed.

Lemma first_round_votes_init cfg : first_round_votes cfg (net_init cfg).
Proof.
  split.
  - intros j a s Ha Hs. simpl in Hs.
    apply list_lookup_fmap_Some in Hs as (a' & -> & Ha'). simplify_eq.
    apply node_phase_init.
  - intros i. simpl. split; [constructor |]. by intros p ?%elem_of_nil.
Qed.

Lemma net_init_not_started cfg j : ¬ has_started (net_init cfg) j.
Proof.
  intros (s & Hs & Hh). unfold net_init in Hs. cbn [nodes] in Hs.
  apply list_lookup_fmap_Some in Hs as (a & -> & _). done.
Qed.

Lemma starters_cons e sched :
  starters (e :: sched) =
    match e with
    | At i GetStart => i :: starters sched
    | _ => starters sched
    end.
Proof. destruct e as [i [] | k]; done. Qed.

Lemma first_round_votes_exec cfg sched n :
  NoDup (starters sched) →
  (∀ j, has_started n j → j ∉ starters sched) →
  first_round_votes cfg n → first_round_votes cfg (net_exec cfg sched n).
Proof.
  revert n. induction sched as [| e sched IH]; intros n Hnd Hfresh Hinv; [done |].
  simpl. apply IH.
  - rewrite starters_cons in Hnd.
    destruct e as [i [] | k]; try done. by apply NoDup_cons in Hnd as [_ ?].
  - intros j (s' & Hs' & Hh').
    destruct (net_step_nodes cfg e n j s' Hs')
      as (s & Hs & [-> | (a & ev & Ha & -> & Hev)]).
    + assert (j ∉ starters (e :: sched)) as Hj by (apply Hfresh; by exists s).
      rewrite starters_cons in Hj.
      destruct e as [i [] | k]; try done. by apply not_elem_of_cons in Hj as [_ ?].
    + destruct (handlers_step a ev s Hh') as [Hh | ->].
      * assert (j ∉ starters (e :: sched)) as Hj by (apply Hfresh; by exists s).
        rewrite starters_cons in Hj.
        destruct e as [i [] | k]; try done. by apply not_elem_of_cons in Hj as [_ ?].
      * destruct Hev as [-> | (st & v & [=])].
        rewrite starters_cons in Hnd. by apply NoDup_cons in Hnd as [? _].
  - apply first_round_votes_step; [| done].
    intros j s -> Hs. destruct (handlers s) eqn:Hh; [done |]. exfalso.
    apply (Hfresh j).
    + exists s. by rewrite Hh.
    + rewrite starters_cons. by left.
Qed.

Lemma first_round_votes_run cfg sched :
  NoDup (starters sched) → first_round_votes cfg (net_run cfg sched).
Proof.
  intros Hnd. apply first_round_votes_exec; [done | |].
  - intros j Hj. by apply net_init_not_started in Hj.
  - apply first_round_votes_init.
Qed.

Lemma votes_for_omap v (l : list Packet) :
  votes_for v (omap p_value l)
  = Z.of_nat (length (filter (λ p, p_value p = Some v) l)).
Proof.
  induction l as [| p l IH]; [done |].
  rewrite filter_cons. simpl.
  change (list_omap Packet Value p_value l) with (omap p_value l).
  destruct (p_value p) as [v' |] eqn:Ev; simpl.
  - destruct (decide (v' = v)) as [-> | Hne].
    + rewrite decide_True by done. rewrite length_cons, Nat2Z.inj_succ, IH. lia.
    + rewrite decide_False by congruence. rewrite IH. lia.
  - exact IH.
Qed.

(** In a closed network where each node is started at most once, the
    votes for [v] that node [i] holds for round 0 come from distinct
    peers whose initial value is [v]. *)
Lemma first_round_inbox cfg sched i s v :
  well_addressed cfg → Forall driver_event sched → NoDup (starters sched) →
  nodes (net_run cfg sched) !! i = Some s →
  ∃ senders : list Z,
    NoDup senders
    ∧ votes_for v (inbox (world s) 0) = Z.of_nat (length senders)
    ∧ ∀ z, z ∈ senders →
        ∃ j a, z = Z.of_nat j ∧ j ≠ i ∧ cfg !! j = Some a ∧ initialValue a = v.
Proof.
  intros Hwa Hdrv Hnd Hs.
  assert (peer_votes_only cfg (net_run cfg sched)) as [Hsrc Hbox].
  { apply (net_invariant cfg (peer_votes_only cfg) driver_event); [| done |].
    - intros e n He. by apply peer_votes_only_step.
    - apply peer_votes_only_init. }
  assert (first_round_votes cfg (net_run cfg sched)) as [_ Hr0]
    by (by apply first_round_votes_run).
  destruct (Hr0 i) as [Hnd0 Hval0].
  set (n := net_run cfg sched) in *.
  set (L := filter (λ p, p_value p = Some v) (round0_to i (delivered n))).
  exists (src <$> L). split_and!.
  - eapply sublist_NoDup; [exact Hnd0 |].
    apply fmap_sublist. unfold L. etrans; [apply sublist_filter |].
    unfold round0_to. rewrite filter_app. apply sublist_inserts_l. done.
  - rewrite (Hbox i s 0 Hs). unfold received_by.
    rewrite votes_for_omap, length_fmap. done.
  - intros z (p & -> & Hp)%list_elem_of_fmap.
    apply list_elem_of_filter in Hp as [Hv Hp].
    assert (p ∈ round0_to i (inflight n ++ delivered n)) as Hp'.
    { unfold round0_to in *. rewrite filter_app. apply elem_of_app. by right. }
    destruct (Hval0 p Hp') as (j & a & Hj & Ha & _ & Hva).
    exists j, a. split_and!; try done.
    + apply list_elem_of_filter in Hp as [[Hd _] Hin].
      destruct (Hsrc p) as [Hne _]; [apply elem_of_app; by right |]. lia.
    + congruence.
Qed.

Lemma launch_well_addressed n f vs bs : well_addressed (launch n f vs bs).
Proof.
  intros i a (p & _ & ->)%list_lookup_imap_Some. done.
Qed.

(** ** Scenario A *)

Lemma scenario_A_lookup b j a :
  scenario_A b !! j = Some a →
  N a = 4 ∧ F a = 1
  ∧ ((j < 3)%nat ∧ initialValue a = V0 ∧ isFaulty a = false
     ∨ j = 3%nat ∧ initialValue a = V1).
Proof.
  destruct j as [| [| [| [| j]]]]; intros [= <-]; simpl;
    split_and!; try done; (left + right); split_and!; try done; lia.
Qed.

Lemma few_senders (senders candidates : list Z) :
  NoDup senders → (∀ z, z ∈ senders → z ∈ candidates) →
  Z.of_nat (length senders) ≤ Z.of_nat (length candidates).
Proof.
  intros Hnd Hin. apply inj_le, submseteq_length. by apply NoDup_submseteq.
Qed.

(** In scenario A, however the votes travel, a participant with belief
    0 that is started once holds at most two votes for 0 and one vote
    for 1 in round 0, and never shows a decision at round 0. *)
Lemma scenario_A_round0 b sched i s :
  Forall driver_event sched → NoDup (starters sched) → (i < 3)%nat →
  nodes (net_run (scenario_A b) sched) !! i = Some s →
  votes_for V0 (inbox (world s) 0) ≤ 2
  ∧ votes_for V1 (inbox (world s) 0) ≤ 1
  ∧ ∀ v, ¬ (decided (nodeState (world s)) = Some true
            ∧ x (nodeState (world s)) = Some v
            ∧ k (nodeState (world s)) = Some 0).
Proof.
  intros Hdrv Hnd Hi Hs.
  pose proof (launch_well_addressed 4 1 [V0; V0; V0; V1] [false; false; false; b])
    as Hwa. fold (scenario_A b) in Hwa.
  assert (votes_for V0 (inbox (world s) 0) ≤ 2) as H0.
  { destruct (first_round_inbox _ sched i s V0 Hwa Hdrv Hnd Hs)
      as (senders & Hnds & -> & Hin).
    etrans.
    - apply (few_senders senders (filter (λ z, z ≠ Z.of_nat i) [0; 1; 2]));
        [done |].
      intros z (j & a & -> & Hne & Ha & Hv)%Hin.
      apply scenario_A_lookup in Ha as (_ & _ & [(Hj & _) | [_ Hv']]);
        [| congruence].
      apply list_elem_of_filter. split; [lia |].
      destruct j as [| [| [| j]]]; [| | | lia]; set_solver.
    - destruct i as [| [| [| i]]]; [| | | lia]; vm_compute; done. }
  assert (votes_for V1 (inbox (world s) 0) ≤ 1) as H1.
  { destruct (first_round_inbox _ sched i s V1 Hwa Hdrv Hnd Hs)
      as (senders & Hnds & -> & Hin).
    change 1 with (Z.of_nat (length [3])).
    apply (few_senders senders [3]); [done |].
    intros z (j & a & -> & Hne & Ha & Hv)%Hin.
    apply scenario_A_lookup in Ha as (_ & _ & [(_ & Hv' & _) | [-> _]]);
      [congruence |]. set_solver. }
  split_and!; [done | done |].
  intros v (Hd & Hx & Hk).
  assert (is_Some (scenario_A b !! i)) as [a Ha].
  { apply lookup_lt_is_Some. simpl. lia. }
  assert (node_phase a s) as (_ & Hbefore & Hafter).
  { destruct (first_round_votes_run (scenario_A b) sched Hnd) as [Hph _].
    by eapply Hph. }
  destruct (handlers s) as [| pc l] eqn:Hh.
  - destruct (Hbefore eq_refl) as [[_ Hu] _]. by apply Hu.
  - destruct Hafter as (pc' & Hh' & Hpc); [done |].
    destruct pc' as [round | round |].
    + destruct Hpc as [Hu _]. by apply Hu.
    + destruct Hpc as [Hu _]. by apply Hu.
    + destruct (Hpc v 0 Hd Hx Hk) as [Hv Hsup]; [unfold MAX_STEPS; lia |].
      apply scenario_A_lookup in Ha as (HN & HF & _). rewrite HN, HF in Hsup.
      destruct v; [lia | lia | done].
Qed.

(** C6 as stated fails: in scenario A, with every vote delivered in
    time, the first participant holds two votes for 0 in round 0, not
    three, and ends with belief 1, decided, round 2; and so whether the
    fourth participant is correct or faulty. *)
Lemma scenario_A_first_participant :
  let u := (1 # 4)%Q in
  let collected b :=
    net_run (scenario_A b)
      (everyone 4 GetStart ++ flush 4 ++ everyone 4 (Resume 0 u)) in
  let final b := net_run (scenario_A b) (lockstep 4 u) in
  ((λ s, inbox (world s) 0) <$> nodes (collected false) !! 0%nat) = Some [V0; V0; V1]
  ∧ ((λ s, inbox (world s) 0) <$> nodes (collected true) !! 0%nat) = Some [V0; V0]
  ∧ state_of (final false) 0 = Some (mkNodeState false (Some V1) (Some true) (Some 2))
  ∧ state_of (final true) 0 = Some (mkNodeState false (Some V1) (Some true) (Some 2))
  ∧ state_of (final false) 0 ≠ Some (mkNodeState false (Some V0) (Some true) (Some 0))
  ∧ state_of (final true) 0 ≠ Some (mkNodeState false (Some V0) (Some true) (Some 0)).
Proof. vm_compute. by split_and!. Qed.

(** C6, amended: in scenario A (N = 4, F = 1, beliefs 0, 0, 0, 1; the
    fourth participant correct or faulty) a participant gets no vote
    from itself.  However the votes travel, if each participant is
    started at most once, a participant with belief 0 holds at most two
    votes for 0 in round 0, below N − F = 3, and never shows a decision
    at round 0.  With every vote delivered within the collection
    window, and whatever the coin, it holds exactly two votes for 0, its
    tally yields belief 0 without a decision, and it ends with belief 1,
    decided, round 2, by the forced decision; the fourth participant,
    when correct, holds three votes for 0 and decides 0 at round 0. *)
Theorem scenario_A_outcome (u : Q) (fourth_faulty : bool) :
  let cfg := scenario_A fourth_faulty in
  let collected := net_run cfg (everyone 4 GetStart ++ flush 4 ++ everyone 4 (Resume 0 u)) in
  let tallied := net_run cfg (everyone 4 GetStart ++ lockstep_round 4 u) in
  let final := net_run cfg (lockstep 4 u) in
  (∀ sched i s,
      Forall driver_event sched → NoDup (starters sched) → (i < 3)%nat →
      nodes (net_run cfg sched) !! i = Some s →
      votes_for V0 (inbox (world s) 0) ≤ 2
      ∧ ∀ v, ¬ (decided (nodeState (world s)) = Some true
                ∧ x (nodeState (world s)) = Some v
                ∧ k (nodeState (world s)) = Some 0))
  ∧ (∀ i, (i < 3)%nat →
      ((λ s, votes_for V0 (inbox (world s) 0)) <$> nodes collected !! i) = Some 2
      ∧ state_of tallied i = Some (mkNodeState false (Some V0) (Some false) (Some 1))
      ∧ state_of final i = Some (mkNodeState false (Some V1) (Some true) (Some 2)))
  ∧ ((λ s, votes_for V0 (inbox (world s) 0)) <$> nodes collected !! 3%nat) = Some 3
  ∧ state_of final 3 =
      Some (if fourth_faulty then mkNodeState false None None None
            else mkNodeState false (Some V0) (Some true) (Some 0)).
Proof.
  intros cfg collected tallied final.
  split_and!.
  - intros sched i s Hdrv Hnd Hi Hs.
    destruct (scenario_A_round0 fourth_faulty sched i s Hdrv Hnd Hi Hs)
      as (H0 & _ & Hdec).
    by split.
  - intros i Hi.
    destruct i as [| [| [| i]]]; [| | | lia];
      destruct fourth_faulty; vm_compute; by split_and!.
  - destruct fourth_faulty; vm_compute; done.
  - destruct fourth_faulty; vm_compute; done.
Qed.

(** ** The theorems at concrete inputs *)

Lemma decision_has_supermajority_witness :
  let a := mkNodeArgs 0 4 1 V0 false in
  let u := (1 # 4)%Q in
  let pre := [PostMessage 0 V0; PostMessage 0 V0; PostMessage 0 V0] in
  let post := [Resume 0 u; Resume 0 u] in
  let s := run a (pre ++ GetStart :: post) in
  ((GetStart ∉ pre) ∧ (GetStart ∉ post)
   ∧ decided (nodeState (world s)) = Some true
   ∧ x (nodeState (world s)) = Some V0
   ∧ k (nodeState (world s)) = Some 0
   ∧ 0 ≠ MAX_STEPS)
  ∧ (handlers s = [Returned]
     ∧ V0 ≠ VQ
     ∧ N a - F a ≤ votes_for V0 (inbox (world s) 0)).
Proof.
  intros a u pre post s.
  assert (GetStart ∉ pre) as H1 by compute_done.
  assert (GetStart ∉ post) as H2 by compute_done.
  assert (decided (nodeState (world s)) = Some true) as H3 by (vm_compute; reflexivity).
  assert (x (nodeState (world s)) = Some V0) as H4 by (vm_compute; reflexivity).
  assert (k (nodeState (world s)) = Some 0) as H5 by (vm_compute; reflexivity).
  assert (0 ≠ MAX_STEPS) as H6 by (unfold MAX_STEPS; lia).
  split; [by split_and! |].
  exact (decision_has_supermajority a pre post V0 0 H1 H2 H3 H4 H5 H6).
Defined.

Lemma infeasible_start_sentinel_witness :
  let a := mkNodeArgs 0 3 2 V0 false in
  let w := init_world a in
  (isFaulty a = false ∧ killed (nodeState w) = false ∧ N a < 2 * F a)
  ∧ (start a w).2 = Returned
  ∧ silent (start a w).1.2
  ∧ nodeState (start a w).1.1 = mkNodeState true (Some V0) (Some false) (Some 11).
Proof.
  intros a w.
  assert (isFaulty a = false) as H1 by reflexivity.
  assert (killed (nodeState w) = false) as H2 by reflexivity.
  assert (N a < 2 * F a) as H3 by (vm_compute; reflexivity).
  split; [by split_and! |].
  pose proof (infeasible_start_sentinel a w H1 H2 H3) as H.
  destruct (start a w) as [[w' out] pc] eqn:Es.
  destruct H as (Hpc & Hout & Hns & _). simpl.
  split_and!; [exact Hpc | exact Hout | exact Hns].
Defined.


Lemma bounded_termination_witness :
  let a := mkNodeArgs 0 4 1 V0 false in
  let u := (3 # 4)%Q in
  let pre := [PostMessage 0 V0] in
  let m0 := [PostMessage 0 V1] in
  let m1 := [GetState] in
  let m2 := [PostMessage 1 V1] in
  let m3 := [] in
  let post := [GetStatus] in
  let t1 := pre ++ GetStart :: m0 ++ Resume 0 u :: m1 in
  let t2 := t1 ++ Resume 0 u :: m2 ++ Resume 0 u :: m3 in
  let s := run a (t2 ++ Resume 0 u :: post) in
  (isFaulty a = false ∧ 2 * F a ≤ N a
   ∧ (process_round a 0 u (world (run a t1))).2 = false
   ∧ (process_round a 1 u (world (run a t2))).2 = false)
  ∧ handlers s = [Returned]
  ∧ nodeState (world s) = mkNodeState false (Some V1) (Some true) (Some MAX_STEPS).
Proof.
  intros a u pre m0 m1 m2 m3 post t1 t2 s.
  assert (isFaulty a = false) as H1 by reflexivity.
  assert (2 * F a ≤ N a) as H2 by (vm_compute; discriminate).
  assert ((process_round a 0 u (world (run a t1))).2 = false) as H3
    by (vm_compute; reflexivity).
  assert ((process_round a 1 u (world (run a t2))).2 = false) as H4
    by (vm_compute; reflexivity).
  split; [by split_and! |].
  assert (Forall passive pre) as P0 by (repeat constructor).
  assert (Forall passive m0) as P1 by (repeat constructor).
  assert (Forall passive m1) as P2 by (repeat constructor).
  assert (Forall passive m2) as P3 by (repeat constructor).
  assert (Forall passive m3) as P4 by (repeat constructor).
  assert (Forall passive post) as P5 by (repeat constructor).
  destruct (bounded_termination a pre m0 m1 m2 m3 post u u u u
              H1 H2 P0 P1 P2 P3 P4 P5) as (Ha & _ & _ & _ & He).
  split; [exact Ha | exact (He H3 H4)].
Defined.

Lemma tally_majority_rule_witness :
  let a := mkNodeArgs 0 4 1 V1 false in
  let u := (3 # 4)%Q in
  let w := mkWorld (nodeState (init_world a)) (<[0 := [V0; VQ; V0; V1; VQ]]> ∅) in
  votes_for V0 (inbox w 0) > votes_for V1 (inbox w 0)
  ∧ x (nodeState (process_round a 0 u w).1) = Some V0.
Proof.
  intros a u w.
  assert (votes_for V0 (inbox w 0) > votes_for V1 (inbox w 0)) as H
    by (vm_compute; reflexivity).
  split; [exact H |].
  exact (proj1 (proj2 (proj2 (proj2 (tally_majority_rule a 0 u w)))) H).
Defined.

Lemma message_after_stop_rejected_witness :
  let a := mkNodeArgs 0 4 1 V0 false in
  let s := (step a GetStop (init a)).1 in
  killed (nodeState (world s)) = true
  ∧ (step a (PostMessage 0 V1) s).2 =
      [Reply (mkResponse 400 (BError "Node is stopped"))]
  ∧ (step a (PostMessage 0 V1) s).1 = s.
Proof.
  intros a s.
  assert (killed (nodeState (world s)) = true) as H by reflexivity.
  split; [exact H |].
  destruct (message_after_stop_rejected a 0 V1 s H) as (Ha & Hb & _).
  split; [exact Ha | exact Hb].
Defined.

Lemma faulty_never_participates_witness :
  let a := mkNodeArgs 3 4 1 V1 true in
  let t := [GetStart; PostMessage 0 V1; GetStop; GetStart] in
  isFaulty a = true
  ∧ sidelined (run a t)
  ∧ silent (outputs a t).
Proof.
  intros a t.
  assert (isFaulty a = true) as H by reflexivity.
  split; [exact H |].
  destruct (faulty_never_participates a t H) as (Ha & Hb & _).
  split; [exact Ha | exact Hb].
Defined.

Lemma no_vote_to_self_witness :
  let a := mkNodeArgs 0 4 1 V0 false in
  Sent 1 0 (Some V0) ∈ (step a GetStart (init a)).2
  ∧ 1 ≠ nodeId a ∧ 0 ≤ 1 < N a.
Proof.
  intros a.
  assert (Sent 1 0 (Some V0) ∈ (step a GetStart (init a)).2) as H
    by (vm_compute; apply list_elem_of_here).
  split; [exact H |].
  exact (proj1 (proj2 no_vote_to_self) a GetStart (init a) 1 0 (Some V0) H).
Defined.

Lemma scenario_A_outcome_witness :
  let u := (1 # 4)%Q in
  let sched := lockstep 4 u in
  let s := mkSys (mkWorld (mkNodeState false (Some V1) (Some true) (Some 2))
                    (<[1 := [V0; V0]]> (<[0 := [V0; V0; V1]]> ∅)))
                 [Returned] in
  (Forall driver_event sched ∧ NoDup (starters sched) ∧ (0 < 3)%nat
   ∧ nodes (net_run (scenario_A false) sched) !! 0%nat = Some s)
  ∧ votes_for V0 (inbox (world s) 0) ≤ 2
  ∧ state_of (net_run (scenario_A false) sched) 0 =
      Some (mkNodeState false (Some V1) (Some true) (Some 2)).
Proof.
  intros u sched s.
  assert (Forall driver_event sched) as H1 by (repeat constructor).
  assert (NoDup (starters sched)) as H2 by compute_done.
  assert (0 < 3)%nat as H3 by lia.
  assert (nodes (net_run (scenario_A false) sched) !! 0%nat = Some s) as H4
    by (vm_compute; reflexivity).
  split; [by split_and! |].
  destruct (scenario_A_outcome u false) as (Hany & Hlock & _).
  split.
  - exact (proj1 (Hany sched 0%nat s H1 H2 H3 H4)).
  - exact (proj2 (proj2 (Hlock 0%nat H3))).
Defined.

(** * Further properties of the node *)

(** ** The inbox *)

Lemma votes_posted_cons round e t :
  votes_posted round (e :: t) = votes_posted round [e] ++ votes_posted round t.
Proof. unfold votes_posted. simpl. by case_match. Qed.

Lemma step_inbox a e s round :
  inbox (world (step a e s).1) round =
    inbox (world s) round
    ++ (if killed (nodeState (world s)) then [] else votes_posted round [e]).
Proof.
  destruct e as [| | st v | | | h u];
    try (unfold inbox; rewrite step_keeps_inbox by done;
         destruct (killed (nodeState (world s))); simpl; by rewrite app_nil_r).
  destruct (killed (nodeState (world s))) eqn:Ek.
  - rewrite step_message_killed by done. by rewrite app_nil_r.
  - rewrite step_message_live by done. cbn [fst world].
    unfold votes_posted. simpl. case_decide as Hst.
    + subst st. by rewrite inbox_message_eq.
    + rewrite inbox_message_ne by done. by rewrite app_nil_r.
Qed.

Lemma live_before a t s :
  killed (nodeState (world (exec a t s).1)) = false →
  killed (nodeState (world s)) = false.
Proof.
  intros Hk. destruct (killed (nodeState (world s))) eqn:Ek; [| done].
  destruct (killed_exec a t s Ek) as [Hk' _]. congruence.
Qed.

Lemma exec_inbox a t s round :
  killed (nodeState (world (exec a t s).1)) = false →
  inbox (world (exec a t s).1) round
  = inbox (world s) round ++ votes_posted round t.
Proof.
  revert s. induction t as [| e t IH]; intros s Hk.
  - simpl. by rewrite app_nil_r.
  - rewrite exec_cons in Hk |- *. cbn [fst] in *.
    rewrite IH by done. rewrite step_inbox.
    apply live_before in Hk. rewrite (live_before a [e] s).
    + by rewrite (votes_posted_cons round e t), app_assoc.
    + rewrite exec_cons. done.
Qed.

(** X1: as long as a node is not killed, its inbox for a round holds
    exactly the votes posted to it for that round, in the order of
    their arrival, whatever else happened at the node in between. *)
Theorem inbox_collects_votes (a : NodeArgs) (t : list Event) (round : Z) :
  killed (nodeState (world (run a t))) = false →
  inbox (world (run a t)) round = votes_posted round t.
Proof.
  intros Hk. unfold run in *. by rewrite exec_inbox.
Qed.

Lemma killed_freezes_inbox a t s :
  killed (nodeState (world s)) = true →
  receivedMessages (world (exec a t s).1) = receivedMessages (world s).
Proof.
  intros Hk.
  apply (exec_invariant a
           (λ s', killed (nodeState (world s')) = true
                  ∧ receivedMessages (world s') = receivedMessages (world s))
           (λ _, True)); [| by apply Forall_true | done].
  intros e s' _ [Hk' Heq]. split; [by apply killed_step |].
  rewrite <- Heq. destruct e as [| | st v | | | h u];
    try (by apply step_keeps_inbox).
  by rewrite step_message_killed.
Qed.

(** X2: the inbox only grows by appending: whatever happens at a node,
    what a round held before is a prefix of what it holds after; and
    once the node is killed the inbox does not change any more. *)
Theorem inbox_append_only (a : NodeArgs) (t : list Event) (s : Sys) :
  (∀ round,
      inbox (world s) round `prefix_of` inbox (world (exec a t s).1) round)
  ∧ (killed (nodeState (world s)) = true →
     receivedMessages (world (exec a t s).1) = receivedMessages (world s)).
Proof.
  split; [| apply killed_freezes_inbox].
  intros round.
  apply (exec_invariant a
           (λ s', inbox (world s) round `prefix_of` inbox (world s') round)
           (λ _, True)); [| by apply Forall_true | done].
  intros e s' _ Hp. etrans; [exact Hp |].
  rewrite step_inbox. by apply prefix_app_r.
Qed.

(** ** The tally does not depend on the order of the votes *)

Lemma votes_for_Permutation v votes votes' :
  votes ≡ₚ votes' → votes_for v votes = votes_for v votes'.
Proof.
  induction 1 as [| y l l' _ IH | y z l | l l' l'' _ IH1 _ IH2]; simpl;
    [done | by rewrite IH | lia | congruence].
Qed.

(** X3: the tally and the decision of a round depend on how many votes
    of each value the inbox holds, not on the order in which they
    arrived. *)
Theorem tally_order_irrelevant (a : NodeArgs) (round : Z) (u : Q) (w w' : World) :
  inbox w round ≡ₚ inbox w' round →
  tally (inbox w round) u = tally (inbox w' round) u
  ∧ x (nodeState (process_round a round u w).1)
    = x (nodeState (process_round a round u w').1)
  ∧ (process_round a round u w).2 = (process_round a round u w').2.
Proof.
  intros Hp.
  assert (tally (inbox w round) u = tally (inbox w' round) u) as Ht.
  { rewrite !tally_votes_for.
    by rewrite (votes_for_Permutation V0 _ _ Hp), (votes_for_Permutation V1 _ _ Hp). }
  split; [done |].
  rewrite !process_round_eq. simpl. rewrite Ht.
  rewrite (votes_for_Permutation _ _ _ Hp). by case_decide.
Qed.

(** ** The size of a broadcast *)

Lemma omap_guard_length (f : Z → Output) (z : Z) (l : list Z) :
  NoDup l →
  length (omap (λ i, if decide (i ≠ z) then Some (f i) else None) l)
  = (length l - (if decide (z ∈ l) then 1 else 0))%nat.
Proof.
  induction l as [| i l IH]; intros Hnd; [done |].
  apply NoDup_cons in Hnd as [Hi Hnd]. specialize (IH Hnd).
  simpl. change (list_omap Z Output ?g l) with (omap g l).
  destruct (decide (i ≠ z)) as [Hne | Heq].
  - simpl. rewrite IH.
    destruct (decide (z ∈ l)) as [Hin | Hnin].
    + rewrite decide_True by (by right).
      destruct l; [by apply elem_of_nil in Hin | simpl; lia].
    + rewrite decide_False; [lia |].
      intros [? | ?]%elem_of_cons; [congruence | done].
  - assert (i = z) as -> by (destruct (decide (i = z)); [done | by destruct Heq]).
    rewrite IH. rewrite (decide_False (P := z ∈ l)) by done.
    rewrite decide_True by (by left). simpl. lia.
Qed.

(** X4: a broadcast posts N − 1 votes when the node's id is one of
    0 .. N − 1, and N votes (none if N ≤ 0) when it is not. *)
Theorem broadcast_size (a : NodeArgs) (round : Z) (xv : option Value) :
  Z.of_nat (length (broadcast a round xv)) =
    if decide (0 ≤ nodeId a < N a) then N a - 1 else Z.max 0 (N a).
Proof.
  unfold broadcast.
  rewrite (omap_guard_length (λ i, Sent i round xv))
    by (apply NoDup_fmap_2; [apply _ | apply NoDup_seq]).
  rewrite length_fmap, length_seq.
  destruct (decide (0 ≤ nodeId a < N a)) as [Hin | Hout].
  - rewrite decide_True; [lia |].
    apply list_elem_of_fmap. exists (Z.to_nat (nodeId a)).
    split; [lia |]. apply elem_of_seq. lia.
  - rewrite decide_False; [lia |].
    intros (n & Hn & Hseq%elem_of_seq)%list_elem_of_fmap. lia.
Qed.

(** ** Nodes that sit out *)

Lemma sits_out_step a e s :
  sits_out a → all_returned s →
  all_returned (step a e s).1 ∧ silent (step a e s).2.
Proof.
  intros Hout Hret.
  destruct (decide (e = GetStart)) as [-> | He].
  - unfold step, all_returned.
    assert (∃ w out, start a (world s) = (w, out, Returned) ∧ silent out)
      as (w & out & Hs & Hsil).
    { destruct (killed (nodeState (world s))) eqn:Ek.
      - rewrite start_killed by done. eexists _, _. split; [done | apply silent_reply].
      - destruct (isFaulty a) eqn:Ef.
        + rewrite start_faulty by done.
          eexists _, _. split; [done | apply silent_reply].
        + destruct Hout as [? | HNF]; [congruence |].
          rewrite start_infeasible by done.
          eexists _, _. split; [done | apply silent_reply]. }
    rewrite Hs. simpl. split; [| done].
    apply Forall_app. split; [done | by constructor].
  - destruct e as [| | st v | | | h u]; try done.
    + split; [done | apply silent_reply].
    + split; [done | apply silent_reply].
    + destruct (killed (nodeState (world s))) eqn:Ek.
      * rewrite step_message_killed by done. split; [done | apply silent_reply].
      * rewrite step_message_live by done. split; [done | apply silent_reply].
    + split; [done | apply silent_reply].
    + destruct (idle_step a (Resume h u) s) as (_ & Hh & Hsil); [done | done |].
      split; [| done]. unfold all_returned. by rewrite Hh.
Qed.

(** ** The fields of a live node *)

Lemma fields_set_step a e s : fields_set a s → fields_set a (step a e s).1.
Proof.
  unfold fields_set. intros Hfs Hf.
  destruct e as [| | st v | | | h u].
  - by auto.
  - by auto.
  - destruct (killed (nodeState (world s))) eqn:Ek.
    + rewrite step_message_killed by done. simpl. congruence.
    + rewrite step_message_live by done. simpl. auto.
  - done.
  - unfold step.
    destruct (start a (world s)) as [[w out] pc] eqn:Es. simpl.
    unfold start, loop, loop_head, finish in Es. rewrite Hf in Es.
    setters.
    branches; try done; intros; try congruence;
      destruct Hfs as (? & ? & ?); try done; split_and!; by eauto.
  - unfold step. destruct (handlers s !! h) as [pc |]; [| by auto].
    destruct (resume a pc u (world s)) as [[w out] pc'] eqn:Es. simpl.
    destruct pc as [round | round |]; simpl in Es;
      [by simplify_eq; auto | | by simplify_eq; auto].
    rewrite process_round_eq in Es. simpl in Es.
    unfold loop, loop_head, finish in Es.
    setters.
    branches; try done; intros; try congruence;
      destruct Hfs as (? & ? & ?); try done; split_and!; by eauto.
Qed.

(** X5: on a non-faulty node that is not killed, belief, decided and
    round are never null, whatever requests and continuations it has
    gone through, repeated [/start] requests included. *)
Theorem live_node_fields_set (a : NodeArgs) (t : list Event) :
  isFaulty a = false →
  killed (nodeState (world (run a t))) = false →
  is_Some (x (nodeState (world (run a t))))
  ∧ is_Some (decided (nodeState (world (run a t))))
  ∧ is_Some (k (nodeState (world (run a t)))).
Proof.
  intros Hf Hk.
  assert (fields_set a (run a t)) as Hfs; [| by apply Hfs].
  apply (exec_invariant a (fields_set a) (λ _, True)).
  - intros e s _. apply fields_set_step.
  - by apply Forall_true.
  - intros _ _. simpl. rewrite Hf. by eauto.
Qed.

(** ** What a node posts, over a whole run *)

Lemma exec_outputs a (P : Sys → Prop) (R : Output → Prop) :
  (∀ e s, P s → P (step a e s).1 ∧ ∀ o, o ∈ (step a e s).2 → R o) →
  ∀ t s, P s → ∀ o, o ∈ (exec a t s).2 → R o.
Proof.
  intros Hstep t. induction t as [| e t IH]; intros s Hs o.
  - by intros ?%elem_of_nil.
  - rewrite exec_cons. cbn [snd].
    destruct (Hstep e s Hs) as [HP HR].
    intros [Ho | Ho]%elem_of_app; [by apply HR | by eapply IH].
Qed.

Lemma loop_sent_round a round w dest st v :
  Sent dest st v ∈ (loop a round w).1.2 → round < MAX_STEPS.
Proof.
  unfold loop, loop_head. case_decide; [done |]. by intros ?%finish_sent.
Qed.

Lemma numeric_tally votes u : numeric (Some (tally votes u)).
Proof.
  pose proof (tally_numeric votes u). unfold numeric.
  destruct (tally votes u); by eauto.
Qed.

Lemma resume_sent_kind a pc u w dest st v :
  pc_in_loop pc →
  Sent dest st v ∈ (resume a pc u w).1.2 → st = 1 ∧ numeric v.
Proof.
  intros Hin. destruct pc as [round | round |]; simpl;
    [by intros ?%elem_of_nil | | by intros ?%elem_of_nil].
  rewrite process_round_eq. simpl.
  case_decide; [by intros ?%finish_sent |].
  intros Hs. pose proof (loop_sent_round _ _ _ _ _ _ Hs) as Hr.
  apply loop_sent in Hs as (_ & _ & -> & -> & _).
  simpl in *. unfold MAX_STEPS in *. split; [lia |]. apply numeric_tally.
Qed.

Lemma step_sent_kind a e s dest st v :
  Forall pc_in_loop (handlers s) →
  Sent dest st v ∈ (step a e s).2 →
  (e = GetStart ∧ st = 0 ∧ v = x (nodeState (world s))
   ∧ killed (nodeState (world s)) = false ∧ isFaulty a = false)
  ∨ ((∃ h u, e = Resume h u) ∧ st = 1 ∧ numeric v).
Proof.
  intros Hpc. destruct e as [| | st' v' | | | h u]; simpl.
  - by intros ?%silent_reply.
  - by intros ?%silent_reply.
  - destruct (message st' v' (world s)). by intros ?%silent_reply.
  - by intros ?%silent_reply.
  - destruct (start a (world s)) as [[w out] pc] eqn:Es. simpl.
    intros Hin. pose proof (start_sent a (world s) dest st v) as H.
    rewrite Es in H. destruct (H Hin) as (_ & _ & ? & ? & ? & ?). by left.
  - destruct (handlers s !! h) as [pc |] eqn:Eh; [| by intros ?%elem_of_nil].
    pose proof (Forall_lookup_1 _ _ _ _ Hpc Eh) as Hin.
    destruct (resume a pc u (world s)) as [[w out] pc'] eqn:Es. simpl.
    intros Hs. pose proof (resume_sent_kind a pc u (world s) dest st v Hin) as H.
    rewrite Es in H. destruct (H Hs) as [? ?]. right. by eauto.
Qed.

Lemma post_ready_step a e s : post_ready a s → post_ready a (step a e s).1.
Proof.
  intros (Hpc & Hb & Hout). split_and!.
  - by apply pc_in_loop_step.
  - by apply has_belief_step.
  - intros Ho. by apply sits_out_step; [| apply Hout].
Qed.

Lemma post_ready_init a : post_ready a (init a).
Proof.
  split_and!; [constructor | apply has_belief_init | intros _; constructor].
Qed.

(** X6: every vote a node ever posts goes to a peer index of [0, N)
    other than itself, is a vote of round 0 or of round 1, and carries a
    value that is not null, and is 0 or 1 for round 1.  A faulty node,
    and a node with F > N/2, posts none. *)
Theorem posted_votes (a : NodeArgs) (t : list Event) (dest st : Z) (v : option Value) :
  Sent dest st v ∈ outputs a t →
  isFaulty a = false ∧ 2 * F a ≤ N a
  ∧ 0 ≤ dest < N a ∧ dest ≠ nodeId a
  ∧ (st = 0 ∨ st = 1)
  ∧ v ≠ None
  ∧ (st = 1 → numeric v).
Proof.
  intros Hin.
  apply (exec_outputs a (post_ready a)
           (λ o, ∀ dest st v, o = Sent dest st v →
              isFaulty a = false ∧ 2 * F a ≤ N a
              ∧ 0 ≤ dest < N a ∧ dest ≠ nodeId a
              ∧ (st = 0 ∨ st = 1) ∧ v ≠ None ∧ (st = 1 → numeric v))
           ) with (t := t) (s := init a) (o := Sent dest st v);
    [| apply post_ready_init | exact Hin | done].
  clear. intros e s (Hpc & Hb & Hout). split; [by apply post_ready_step |].
  intros o Ho dest st v ->.
  assert (¬ sits_out a) as Hin.
  { intros Hso. destruct (sits_out_step a e s Hso (Hout Hso)) as [_ Hsil].
    by eapply Hsil. }
  assert (isFaulty a = false ∧ 2 * F a ≤ N a) as [Hf HNF].
  { unfold sits_out in Hin. destruct (isFaulty a); [tauto |]. split; [done | lia]. }
  destruct (step_sent a e s dest st v Ho) as [Hne Hrange].
  split_and!; try done; try lia.
  - destruct (step_sent_kind a e s dest st v Hpc Ho) as [(_ & ? & _) | (_ & ? & _)];
      by eauto.
  - by eapply step_sent_value.
  - intros ->.
    destruct (step_sent_kind a e s dest 1 v Hpc Ho) as [(_ & ? & _) | (_ & _ & ?)];
      done.
Qed.

(** ** What [/start] answers *)

Lemma reply_not_broadcast a round xv r : Reply r ∉ broadcast a round xv.
Proof. intros (i & [=] & _)%broadcast_sent. Qed.

Lemma finish_reply w r :
  Reply r ∈ (finish w).1.2 →
  ∃ rx rk,
    r = mkResponse 200 (BResult "Consensus process finished" rx (Some true) rk)
    ∧ (rx = Some V1 ∨ rx = x (nodeState w)).
Proof.
  unfold finish. simpl. intros Hr%list_elem_of_singleton. injection Hr as ->.
  destruct (decided (nodeState w)) as [[|] |] eqn:Ed; simpl; rewrite ?Ed;
    eexists _, _; by eauto.
Qed.

Lemma loop_reply a round w r :
  Reply r ∈ (loop a round w).1.2 →
  ∃ rx rk,
    r = mkResponse 200 (BResult "Consensus process finished" rx (Some true) rk)
    ∧ (rx = Some V1 ∨ rx = x (nodeState w)).
Proof.
  unfold loop, loop_head.
  case_decide; [| apply finish_reply].
  destruct (killed (nodeState w)); [apply finish_reply |].
  simpl. by intros ?%reply_not_broadcast.
Qed.

Lemma resume_reply a pc u w r :
  Reply r ∈ (resume a pc u w).1.2 →
  (∃ round, pc = AwaitDelay round)
  ∧ ∃ rx rk,
      r = mkResponse 200 (BResult "Consensus process finished" rx (Some true) rk)
      ∧ numeric rx.
Proof.
  destruct pc as [round | round |]; simpl;
    [by intros ?%elem_of_nil | | by intros ?%elem_of_nil].
  rewrite process_round_eq. simpl.
  pose proof (numeric_tally (inbox w round) u) as Hnum.
  intros Hr. split; [by eauto |].
  assert (∃ rx rk,
            r = mkResponse 200
                  (BResult "Consensus process finished" rx (Some true) rk)
            ∧ (rx = Some V1 ∨ rx = Some (tally (inbox w round) u)))
    as (rx & rk & -> & Hrx).
  { case_decide; [by apply finish_reply in Hr | by apply loop_reply in Hr]. }
  exists rx, rk. split; [done |].
  destruct Hrx as [-> | ->]; [by right | done].
Qed.

Lemma start_reply a w r :
  Reply r ∈ (start a w).1.2 →
  r = mkResponse 400 (BError "Node is stopped")
  ∨ r = mkResponse 200 (BStatus "Faulty node, not participating")
  ∨ (∃ v, r = mkResponse 200
               (BResult "Exceeding fault tolerance => no finality"
                  (Some v) (Some false) (Some 11)))
    ∧ isFaulty a = false ∧ N a < 2 * F a.
Proof.
  destruct (killed (nodeState w)) eqn:Ek.
  { rewrite start_killed by done. simpl.
    intros Hr%list_elem_of_singleton. injection Hr as ->. by left. }
  destruct (isFaulty a) eqn:Ef.
  { rewrite start_faulty by done. simpl.
    intros Hr%list_elem_of_singleton. injection Hr as ->. right. by left. }
  destruct (decide (N a < 2 * F a)) as [HNF | HNF].
  - rewrite start_infeasible by done. simpl.
    intros Hr%list_elem_of_singleton. injection Hr as ->. right. right. by eauto.
  - rewrite start_feasible by (done || lia). simpl.
    by intros ?%reply_not_broadcast.
Qed.

(** X7: an answer of [/start] that carries a result is one of two
    kinds, both with status 200.  "Consensus process finished" is given
    by a node that takes part (non-faulty, F ≤ N/2) and always reports
    [decided = true] with x equal to 0 or 1, also when the node was
    stopped while the loop ran.  "Exceeding fault tolerance => no
    finality" is given by a non-faulty node with F > N/2 and reports
    [decided = false], round 11 and a non-null x. *)
Theorem start_answers (a : NodeArgs) (t : list Event)
    (c : Z) (msg : string) (rx : option Value) (rd : option bool) (rk : option Z) :
  Reply (mkResponse c (BResult msg rx rd rk)) ∈ outputs a t →
  c = 200 ∧ isFaulty a = false
  ∧ (msg = "Consensus process finished"
     ∧ rd = Some true ∧ numeric rx ∧ 2 * F a ≤ N a
     ∨ msg = "Exceeding fault tolerance => no finality"
       ∧ rd = Some false ∧ rk = Some 11 ∧ is_Some rx ∧ N a < 2 * F a).
Proof.
  intros Hin.
  apply (exec_outputs a (post_ready a)
           (λ o, ∀ c msg rx rd rk,
              o = Reply (mkResponse c (BResult msg rx rd rk)) →
              c = 200 ∧ isFaulty a = false
              ∧ (msg = "Consensus process finished"
                 ∧ rd = Some true ∧ numeric rx ∧ 2 * F a ≤ N a
                 ∨ msg = "Exceeding fault tolerance => no finality"
                   ∧ rd = Some false ∧ rk = Some 11 ∧ is_Some rx
                   ∧ N a < 2 * F a)))
    with (t := t) (s := init a)
         (o := Reply (mkResponse c (BResult msg rx rd rk)));
    [| apply post_ready_init | exact Hin | done].
  clear. intros e s Hready. split; [by apply post_ready_step |].
  destruct Hready as (Hpc & Hb & Hout).
  intros o Ho c msg rx rd rk ->.
  destruct e as [| | st v | | | h u]; simpl in Ho.
  - unfold status in Ho. apply list_elem_of_singleton in Ho. by case_match.
  - by apply list_elem_of_singleton in Ho.
  - destruct (message st v (world s)) as [w r] eqn:Em.
    apply list_elem_of_singleton in Ho. injection Ho as <-.
    unfold message in Em. by case_match; simplify_eq.
  - by apply list_elem_of_singleton in Ho.
  - destruct (start a (world s)) as [[w out] pc] eqn:Es. simpl in Ho.
    pose proof (start_reply a (world s)
                  (mkResponse c (BResult msg rx rd rk))) as H.
    rewrite Es in H.
    destruct (H Ho) as [[=] | [[=] | ([v [=]] & Hf & HNF)]]. subst.
    split_and!; try done. right. by eauto.
  - destruct (handlers s !! h) as [pc |] eqn:Eh; [| by apply elem_of_nil in Ho].
    destruct (resume a pc u (world s)) as [[w out] pc'] eqn:Es. simpl in Ho.
    pose proof (resume_reply a pc u (world s)
                  (mkResponse c (BResult msg rx rd rk))) as H.
    rewrite Es in H.
    destruct (H Ho) as ([round ->] & rx' & rk' & [=] & Hnum). subst.
    assert (¬ sits_out a) as Hin.
    { intros Hso. pose proof (Forall_lookup_1 _ _ _ _ (Hout Hso) Eh). done. }
    unfold sits_out in Hin.
    assert (isFaulty a = false) by (destruct (isFaulty a); [tauto | done]).
    split_and!; try done. left. split_and!; try done. lia.
Qed.

(** ** Every [/start] invocation returns *)

Lemma awaits_left_bound pc : pc_in_loop pc → (awaits_left pc ≤ 4)%nat.
Proof. destruct pc; simpl; unfold MAX_STEPS; lia. Qed.

Lemma awaits_left_zero pc : pc_in_loop pc → awaits_left pc = 0%nat → pc = Returned.
Proof. destruct pc; simpl; unfold MAX_STEPS; try done; lia. Qed.

Lemma resume_progress a pc u w :
  pc_in_loop pc →
  (awaits_left (resume a pc u w).2 ≤ awaits_left pc - 1)%nat.
Proof.
  intros Hin. unfold awaits_left, pc_in_loop, MAX_STEPS in *.
  destruct pc as [round | round |]; cbn [resume snd]; [lia | | lia].
  rewrite process_round_eq. cbn zeta.
  case_decide; [unfold finish; cbn [snd]; lia |].
  unfold loop, loop_head, MAX_STEPS.
  case_decide; [| unfold finish; cbn [snd]; lia].
  destruct (killed _); [unfold finish |]; cbn [snd]; lia.
Qed.

Lemma step_progress a e s h pc :
  Forall pc_in_loop (handlers s) →
  handlers s !! h = Some pc →
  ∃ pc', handlers (step a e s).1 !! h = Some pc'
         ∧ (awaits_left pc' ≤ awaits_left pc - resumes h [e])%nat.
Proof.
  intros Hpc Hh.
  assert (h < length (handlers s))%nat as Hlt by (by eapply lookup_lt_Some).
  pose proof (Forall_lookup_1 _ _ _ _ Hpc Hh) as Hin.
  destruct e as [| | st v | | | h' u];
    try (exists pc; rewrite resumes_other by done; split; [done | lia]).
  - exists pc. rewrite resumes_other by done. split; [| lia].
    destruct (killed (nodeState (world s))) eqn:Ek.
    + by rewrite step_message_killed.
    + by rewrite step_message_live.
  - exists pc. rewrite resumes_other by done. split; [| lia].
    unfold step. destruct (start a (world s)) as [[w out] pc0]. simpl.
    by rewrite lookup_app_l.
  - destruct (decide (h' = h)) as [-> | Hne].
    + rewrite resumes_same. unfold step. rewrite Hh.
      destruct (resume a pc u (world s)) as [[w out] pc'] eqn:Es. simpl.
      exists pc'. split; [by apply list_lookup_insert_eq |].
      pose proof (resume_progress a pc u (world s) Hin) as Hprog.
      by rewrite Es in Hprog.
    + rewrite resumes_other by (simpl; by apply bool_decide_eq_false).
      exists pc. split; [| lia].
      unfold step. destruct (handlers s !! h') as [pc0 |]; [| done].
      destruct (resume a pc0 u (world s)) as [[w out] pc']. simpl.
      by rewrite list_lookup_insert_ne.
Qed.

Lemma exec_progress a t s h pc :
  Forall pc_in_loop (handlers s) →
  handlers s !! h = Some pc →
  ∃ pc', handlers (exec a t s).1 !! h = Some pc'
         ∧ pc_in_loop pc'
         ∧ (awaits_left pc' ≤ awaits_left pc - resumes h t)%nat.
Proof.
  revert s pc. induction t as [| e t IH]; intros s pc Hpc Hh.
  - exists pc. split_and!; [done | by eapply Forall_lookup_1 |].
    unfold resumes. rewrite filter_nil. simpl. lia.
  - rewrite exec_cons. cbn [fst].
    destruct (step_progress a e s h pc Hpc Hh) as (pc1 & Hh1 & Hle1).
    destruct (IH (step a e s).1 pc1) as (pc' & Hh' & Hin' & Hle');
      [by apply pc_in_loop_step | done |].
    exists pc'. split_and!; [done | done |].
    rewrite resumes_cons. lia.
Qed.

Lemma pc_in_loop_run a t : Forall pc_in_loop (handlers (run a t)).
Proof.
  apply (exec_invariant a (λ s, Forall pc_in_loop (handlers s)) (λ _, True)).
  - intros e s _. apply pc_in_loop_step.
  - by apply Forall_true.
  - constructor.
Qed.

(** X8: every [/start] invocation has returned once it has been resumed
    four times (two [await]s in each of the two rounds), whatever
    requests, [stop] and other [/start] invocations come in between. *)
Theorem start_returns (a : NodeArgs) (t1 t2 : list Event) (h : nat) :
  (h < length (handlers (run a t1)))%nat →
  (4 ≤ resumes h t2)%nat →
  handlers (run a (t1 ++ t2)) !! h = Some Returned.
Proof.
  intros Hh Hres.
  apply lookup_lt_is_Some in Hh as [pc Hpc].
  pose proof (pc_in_loop_run a t1) as Hin.
  destruct (exec_progress a t2 (run a t1) h pc Hin Hpc) as (pc' & Hh' & Hin' & Hle).
  rewrite run_app, Hh'. f_equal. apply awaits_left_zero; [done |].
  pose proof (awaits_left_bound pc (Forall_lookup_1 _ _ _ _ Hin Hpc)). lia.
Qed.

(** ** A decision is undone by [stop] only *)

Lemma decided_step a e s :
  isFaulty a = false → 2 * F a ≤ N a → e ≠ GetStop →
  decided (nodeState (world s)) = Some true →
  decided (nodeState (world (step a e s).1)) = Some true.
Proof.
  intros Hf HNF He Hd. apply half_lt_false in HNF.
  destruct e as [| | st v | | | h u]; try done.
  - destruct (killed (nodeState (world s))) eqn:Ek.
    + by rewrite step_message_killed.
    + by rewrite step_message_live.
  - unfold step.
    destruct (start a (world s)) as [[w out] pc] eqn:Es. simpl.
    unfold start, loop, loop_head, finish in Es. rewrite Hf, HNF in Es.
    setters. branches; try done; congruence.
  - unfold step. destruct (handlers s !! h) as [pc |]; [| done].
    destruct (resume a pc u (world s)) as [[w out] pc'] eqn:Es. simpl.
    destruct pc as [round | round |]; simpl in Es; [by simplify_eq | | by simplify_eq].
    rewrite process_round_eq in Es. simpl in Es.
    unfold loop, loop_head, finish in Es.
    setters. branches; try done; congruence.
Qed.

(** X9: on a node that takes part (non-faulty, F ≤ N/2), once [decided]
    is true it stays true whatever happens short of a [stop]: votes,
    continuations of invocations still in their loop, and further
    [/start] requests do not reset it. *)
Theorem decision_flag_sticks (a : NodeArgs) (t : list Event) (s : Sys) :
  isFaulty a = false → 2 * F a ≤ N a →
  GetStop ∉ t →
  decided (nodeState (world s)) = Some true →
  decided (nodeState (world (exec a t s).1)) = Some true.
Proof.
  intros Hf HNF Ht Hd.
  apply (exec_invariant a (λ s', decided (nodeState (world s')) = Some true)
           (λ e, e ≠ GetStop)); [| | done].
  - intros e s' He Hd'. by apply decided_step.
  - apply Forall_forall. intros e He ->. done.
Qed.

(** ** The round value 11 *)

Lemma sentinel_step a e s :
  post_ready a s →
  sentinel_marks_infeasible a s →
  sentinel_marks_infeasible a (step a e s).1.
Proof.
  intros (Hpc & _ & Hout) Hsen. unfold sentinel_marks_infeasible in *.
  destruct e as [| | st v | | | h u]; try done.
  - destruct (killed (nodeState (world s))) eqn:Ek.
    + rewrite step_message_killed by done. simpl. by rewrite Ek.
    + rewrite step_message_live by done. simpl. by rewrite Ek.
  - (* start *)
    unfold step.
    destruct (killed (nodeState (world s))) eqn:Ek.
    { rewrite start_killed by done. simpl. by rewrite Ek. }
    destruct (isFaulty a) eqn:Ef.
    { by rewrite start_faulty. }
    destruct (decide (N a < 2 * F a)) as [HNF | HNF].
    + rewrite start_infeasible by done. simpl. intros _.
      by split_and!.
    + rewrite start_feasible by (done || lia). simpl. done.
  - (* a continuation *)
    unfold step. destruct (handlers s !! h) as [pc |] eqn:Eh; [| done].
    pose proof (Forall_lookup_1 _ _ _ _ Hpc Eh) as Hin.
    destruct (resume a pc u (world s)) as [[w out] pc'] eqn:Es. simpl.
    destruct pc as [round | round |]; simpl in Es; [by simplify_eq | | by simplify_eq].
    assert (¬ sits_out a) as Hpart.
    { intros Hso. pose proof (Forall_lookup_1 _ _ _ _ (Hout Hso) Eh). done. }
    assert (k (nodeState (world s)) ≠ Some 11) as Hk.
    { intros Hk. destruct (Hsen Hk) as (_ & ? & _). apply Hpart. by right. }
    rewrite process_round_eq in Es. simpl in Es.
    unfold loop, loop_head, finish in Es.
    unfold pc_in_loop, MAX_STEPS in *. setters.
    branches; intros; simplify_eq; try done; lia.
Qed.

(** X10: the round value 11 is found only on a non-faulty node with
    F > N/2 whose start request found consensus infeasible: such a node
    is killed and undecided ([decided = false]) and has a belief.  No
    run of the loop ever writes 11. *)
Theorem sentinel_only_when_infeasible (a : NodeArgs) (t : list Event) :
  k (nodeState (world (run a t))) = Some 11 →
  isFaulty a = false ∧ N a < 2 * F a
  ∧ killed (nodeState (world (run a t))) = true
  ∧ decided (nodeState (world (run a t))) = Some false
  ∧ is_Some (x (nodeState (world (run a t)))).
Proof.
  assert (post_ready a (run a t) ∧ sentinel_marks_infeasible a (run a t))
    as [_ H]; [| exact H].
  apply (exec_invariant a
           (λ s, post_ready a s ∧ sentinel_marks_infeasible a s) (λ _, True)).
  - intros e s _ [Hr Hs]. split; [by apply post_ready_step | by apply sentinel_step].
  - by apply Forall_true.
  - split; [apply post_ready_init |].
    unfold sentinel_marks_infeasible. simpl. by destruct (isFaulty a).
Qed.

(** ** The read routes *)

Lemma votes_of_app o1 o2 : votes_of (o1 ++ o2) = votes_of o1 ++ votes_of o2.
Proof. apply filter_app. Qed.

Lemma read_step a e s :
  is_read e → (step a e s).1 = s ∧ votes_of (step a e s).2 = [].
Proof. by destruct e. Qed.

(** X11: [/status] and [/getState] only read: leaving all of them out of
    a run changes neither the state the node ends in nor the votes it
    posts. *)
Theorem reads_change_nothing (a : NodeArgs) (t : list Event) (s : Sys) :
  (exec a (filter (λ e, ¬ is_read e) t) s).1 = (exec a t s).1
  ∧ votes_of (exec a (filter (λ e, ¬ is_read e) t) s).2 = votes_of (exec a t s).2.
Proof.
  revert s. induction t as [| e t IH]; intros s; [done |].
  rewrite filter_cons. destruct (decide (¬ is_read e)) as [He | He].
  - rewrite !exec_cons. cbn [fst snd]. rewrite !votes_of_app.
    destruct (IH (step a e s).1) as [-> ->]. done.
  - assert (is_read e) as Hr by (destruct (decide (is_read e)); [done | tauto]).
    destruct (read_step a e s Hr) as [Hs Hv].
    rewrite (exec_cons a e t). cbn [fst snd]. rewrite votes_of_app, Hs, Hv.
    apply IH.
Qed.

(** ** A decision at round 0 is a value the peers started with *)

(** X12: in a closed network in which each node is started at most
    once, a node that shows a decision for [v] at round 0 has at least
    N − F distinct peers, none of them itself, whose initial value is
    [v]. *)
Theorem round0_decision_is_valid (cfg : list NodeArgs) (sched : list NetEvent)
    (i : nat) (a : NodeArgs) (s : Sys) (v : Value) :
  well_addressed cfg → Forall driver_event sched → NoDup (starters sched) →
  cfg !! i = Some a →
  nodes (net_run cfg sched) !! i = Some s →
  decided (nodeState (world s)) = Some true →
  x (nodeState (world s)) = Some v →
  k (nodeState (world s)) = Some 0 →
  ∃ senders : list Z,
    NoDup senders
    ∧ N a - F a ≤ Z.of_nat (length senders)
    ∧ ∀ z, z ∈ senders →
        ∃ j a', z = Z.of_nat j ∧ j ≠ i ∧ cfg !! j = Some a' ∧ initialValue a' = v.
Proof.
  intros Hwa Hdrv Hnd Ha Hs Hd Hx Hk.
  destruct (first_round_inbox cfg sched i s v Hwa Hdrv Hnd Hs)
    as (senders & Hnds & Hcount & Hin).
  exists senders. split_and!; [done | | done].
  rewrite <- Hcount.
  destruct (first_round_votes_run cfg sched Hnd) as [Hph _].
  destruct (Hph i a s Ha Hs) as (_ & Hbefore & Hafter).
  destruct (handlers s) as [| pc l] eqn:Hh.
  - destruct (Hbefore eq_refl) as [[_ Hu] _]. by destruct Hu.
  - destruct Hafter as (pc' & Hh' & Hpc); [done |].
    destruct pc' as [round | round |].
    + destruct Hpc as [Hu _]. by destruct Hu.
    + destruct Hpc as [Hu _]. by destruct Hu.
    + destruct (Hpc v 0 Hd Hx Hk) as [_ Hsup]; [unfold MAX_STEPS; lia | done].
Qed.

(** ** A killed node with no invocation in its loop *)

Lemma killed_idle_step a e s :
  killed (nodeState (world s)) = true → all_returned s → e ≠ GetStop →
  world (step a e s).1 = world s ∧ all_returned (step a e s).1.
Proof.
  intros Hk Hret He. destruct e as [| | st v | | | h u]; try done.
  - by rewrite step_message_killed.
  - unfold step. rewrite start_killed by done. simpl. split; [done |].
    apply Forall_app. split; [done | by constructor].
  - unfold step. destruct (handlers s !! h) as [pc |] eqn:Eh; [| done].
    pose proof (Forall_lookup_1 _ _ _ _ Hret Eh) as ->. simpl.
    split; [done |]. unfold all_returned. simpl. by rewrite list_insert_id.
Qed.

(** X13: on a killed node none of whose [/start] invocations is still
    in its loop, nothing but a further [stop] changes the state: votes
    are rejected and [/start] requests are refused, however many come,
    and no vote is posted. *)
Theorem killed_node_is_terminal (a : NodeArgs) (t : list Event) (s : Sys) :
  killed (nodeState (world s)) = true →
  all_returned s →
  GetStop ∉ t →
  world (exec a t s).1 = world s ∧ silent (exec a t s).2.
Proof.
  intros Hk Hret Ht. split; [| by apply killed_exec].
  assert (Forall (λ e, e ≠ GetStop) t) as Hne.
  { apply Forall_forall. intros e He ->. done. }
  apply (exec_invariant a
           (λ s', world s' = world s ∧ all_returned s') (λ e, e ≠ GetStop));
    [| done | done].
  intros e s' He [Hw Hr]. rewrite <- Hw.
  apply killed_idle_step; [by rewrite Hw | done | done].
Qed.

(** ** The further properties at concrete inputs *)

Lemma inbox_collects_votes_witness :
  let a := mkNodeArgs 0 4 1 V0 false in
  let u := (1 # 4)%Q in
  let t := [PostMessage 0 V1; GetStart; PostMessage 1 V0; PostMessage 0 VQ;
            Resume 0 u; PostMessage 0 V0] in
  killed (nodeState (world (run a t))) = false
  ∧ inbox (world (run a t)) 0 = [V1; VQ; V0].
Proof.
  intros a u t.
  assert (killed (nodeState (world (run a t))) = false) as H by reflexivity.
  split; [exact H |].
  exact (inbox_collects_votes a t 0 H).
Defined.

Lemma inbox_append_only_witness :
  let a := mkNodeArgs 0 4 1 V0 false in
  let s := run a [PostMessage 0 V1; GetStop] in
  let t := [PostMessage 0 V0; GetStart; PostMessage 1 V1] in
  killed (nodeState (world s)) = true
  ∧ receivedMessages (world (exec a t s).1) = receivedMessages (world s).
Proof.
  intros a s t.
  assert (killed (nodeState (world s)) = true) as H by reflexivity.
  split; [exact H |].
  exact (proj2 (inbox_append_only a t s) H).
Defined.

Lemma tally_order_irrelevant_witness :
  let a := mkNodeArgs 0 4 1 V0 false in
  let u := (1 # 4)%Q in
  let w := mkWorld (nodeState (init_world a)) (<[0 := [V0; V1; V0; VQ]]> ∅) in
  let w' := mkWorld (nodeState (init_world a)) (<[0 := [VQ; V0; V0; V1]]> ∅) in
  inbox w 0 ≡ₚ inbox w' 0
  ∧ tally (inbox w 0) u = tally (inbox w' 0) u.
Proof.
  intros a u w w'.
  assert (inbox w 0 ≡ₚ inbox w' 0) as H by compute_done.
  split; [exact H |].
  exact (proj1 (tally_order_irrelevant a 0 u w w' H)).
Defined.

Lemma live_node_fields_set_witness :
  let a := mkNodeArgs 0 4 1 V0 false in
  let u := (1 # 4)%Q in
  let t := [GetStart; Resume 0 u; GetStart; Resume 0 u; Resume 1 u] in
  (isFaulty a = false ∧ killed (nodeState (world (run a t))) = false)
  ∧ is_Some (x (nodeState (world (run a t))))
  ∧ is_Some (decided (nodeState (world (run a t))))
  ∧ is_Some (k (nodeState (world (run a t)))).
Proof.
  intros a u t.
  assert (isFaulty a = false) as H1 by reflexivity.
  assert (killed (nodeState (world (run a t))) = false) as H2 by reflexivity.
  split; [by split |].
  exact (live_node_fields_set a t H1 H2).
Defined.

Lemma posted_votes_witness :
  let a := mkNodeArgs 0 4 1 V0 false in
  let u := (1 # 4)%Q in
  let t := [GetStart; Resume 0 u; Resume 0 u] in
  Sent 2 1 (Some V0) ∈ outputs a t
  ∧ isFaulty a = false ∧ 2 * F a ≤ N a ∧ numeric (Some V0).
Proof.
  intros a u t.
  assert (Sent 2 1 (Some V0) ∈ outputs a t) as H.
  { vm_compute. do 4 apply list_elem_of_further. apply list_elem_of_here. }
  split; [exact H |].
  destruct (posted_votes a t 2 1 (Some V0) H) as (H1 & H2 & _ & _ & _ & _ & H3).
  split_and!; [exact H1 | exact H2 | exact (H3 eq_refl)].
Defined.

Lemma start_answers_witness :
  let a := mkNodeArgs 0 4 1 V0 false in
  let u := (1 # 4)%Q in
  let t := [GetStart; Resume 0 u; GetStop; Resume 0 u] in
  Reply (mkResponse 200
           (BResult "Consensus process finished" (Some V1) (Some true) (Some 2)))
    ∈ outputs a t
  ∧ isFaulty a = false.
Proof.
  intros a u t.
  assert (Reply (mkResponse 200
            (BResult "Consensus process finished" (Some V1) (Some true) (Some 2)))
          ∈ outputs a t) as H.
  { vm_compute. do 4 apply list_elem_of_further. apply list_elem_of_here. }
  split; [exact H |].
  exact (proj1 (proj2 (start_answers a t _ _ _ _ _ H))).
Defined.

Lemma start_returns_witness :
  let a := mkNodeArgs 0 4 1 V0 false in
  let u := (1 # 4)%Q in
  let t1 := [PostMessage 0 V1; GetStart] in
  let t2 := [Resume 0 u; GetStop; Resume 0 u; PostMessage 1 V0; GetStart;
             Resume 0 u; Resume 0 u] in
  ((0 < length (handlers (run a t1)))%nat ∧ (4 ≤ resumes 0 t2)%nat)
  ∧ handlers (run a (t1 ++ t2)) !! 0%nat = Some Returned.
Proof.
  intros a u t1 t2.
  assert (0 < length (handlers (run a t1)))%nat as H1 by (vm_compute; lia).
  assert (4 ≤ resumes 0 t2)%nat as H2 by (vm_compute; lia).
  split; [by split |].
  exact (start_returns a t1 t2 0 H1 H2).
Defined.

Lemma decision_flag_sticks_witness :
  let a := mkNodeArgs 0 4 1 V0 false in
  let u := (1 # 4)%Q in
  let s := run a [PostMessage 0 V0; PostMessage 0 V0; PostMessage 0 V0;
                  GetStart; Resume 0 u; Resume 0 u] in
  let t := [PostMessage 0 V1; GetStart; Resume 1 u; Resume 1 u] in
  (isFaulty a = false ∧ 2 * F a ≤ N a ∧ (GetStop ∉ t)
   ∧ decided (nodeState (world s)) = Some true)
  ∧ decided (nodeState (world (exec a t s).1)) = Some true.
Proof.
  intros a u s t.
  assert (isFaulty a = false) as H1 by reflexivity.
  assert (2 * F a ≤ N a) as H2 by (vm_compute; discriminate).
  assert (GetStop ∉ t) as H3 by compute_done.
  assert (decided (nodeState (world s)) = Some true) as H4 by reflexivity.
  split; [by split_and! |].
  exact (decision_flag_sticks a t s H1 H2 H3 H4).
Defined.

Lemma sentinel_only_when_infeasible_witness :
  let a := mkNodeArgs 0 3 2 V0 false in
  let t := [PostMessage 0 V1; GetStart; PostMessage 0 V0; GetStart] in
  k (nodeState (world (run a t))) = Some 11
  ∧ N a < 2 * F a
  ∧ killed (nodeState (world (run a t))) = true.
Proof.
  intros a t.
  assert (k (nodeState (world (run a t))) = Some 11) as H by reflexivity.
  split; [exact H |].
  destruct (sentinel_only_when_infeasible a t H) as (_ & H1 & H2 & _).
  split; [exact H1 | exact H2].
Defined.

Lemma round0_decision_is_valid_witness :
  let u := (1 # 4)%Q in
  let cfg := scenario_A false in
  let sched := lockstep 4 u in
  let a := mkNodeArgs 3 4 1 V1 false in
  let s := mkSys (mkWorld (mkNodeState false (Some V0) (Some true) (Some 0))
                    (<[1 := [V0; V0; V0]]> (<[0 := [V0; V0; V0]]> ∅)))
                 [Returned] in
  (well_addressed cfg ∧ Forall driver_event sched ∧ NoDup (starters sched)
   ∧ cfg !! 3%nat = Some a
   ∧ nodes (net_run cfg sched) !! 3%nat = Some s)
  ∧ ∃ senders : list Z,
      NoDup senders ∧ N a - F a ≤ Z.of_nat (length senders).
Proof.
  intros u cfg sched a s.
  assert (well_addressed cfg) as H1 by apply launch_well_addressed.
  assert (Forall driver_event sched) as H2 by (repeat constructor).
  assert (NoDup (starters sched)) as H3 by compute_done.
  assert (cfg !! 3%nat = Some a) as H4 by reflexivity.
  assert (nodes (net_run cfg sched) !! 3%nat = Some s) as H5
    by (vm_compute; reflexivity).
  split; [by split_and! |].
  destruct (round0_decision_is_valid cfg sched 3 a s V0 H1 H2 H3 H4 H5
              eq_refl eq_refl eq_refl) as (senders & Ha & Hb & _).
  exists senders. split; [exact Ha | exact Hb].
Defined.

Lemma killed_node_is_terminal_witness :
  let a := mkNodeArgs 0 4 1 V0 false in
  let s := run a [PostMessage 0 V1; GetStop] in
  let t := [GetStart; PostMessage 0 V0; GetStart; Resume 0 (1 # 4)%Q; GetState] in
  (killed (nodeState (world s)) = true ∧ all_returned s ∧ (GetStop ∉ t))
  ∧ world (exec a t s).1 = world s.
Proof.
  intros a s t.
  assert (killed (nodeState (world s)) = true) as H1 by reflexivity.
  assert (all_returned s) as H2 by constructor.
  assert (GetStop ∉ t) as H3 by compute_done.
  split; [by split_and! |].
  exact (proj1 (killed_node_is_terminal a t s H1 H2 H3)).
Defined.
